(** * CompDesign Studio: the geometric generation core

    A shallow embedding of the two generators of the studio and of the
    animation state that drives the second one:

    - [calculatePoints] and [handleRandomize] of
      [components/ParametricDesigner.tsx] (the superformula evaluator),
    - [drawTree], [renderFrame], [animate], [resetAnimation] and the
      slider handlers of [components/AlgorithmicDesigner.tsx] (the
      recursive fractal tree with growth and wind),

    and of the code around them: the chart data and the decorated
    vertices of the parametric designer, the "Nodes" label of the
    algorithmic designer, the cleanup of the reply in
    [generateSvgFromPrompt] ([services/geminiService.ts]), the history
    of [components/AiDesigner.tsx], and the comparison slider and the
    data URL parsing of [components/ImageEditor.tsx].

    Arithmetic.  A JavaScript number is modelled by [num]: a real number
    or one of the three IEEE special values.  Finite arithmetic is exact
    (no rounding, no overflow, no underflow, no negative zero: the real
    [0] stands for [+0]); the special values are produced and propagated
    by the rules of ECMA-262 (division by zero, [Math.pow] on zero,
    infinite bases and infinite exponents, comparisons with [NaN]).  The
    canvas geometry of the fractal generator is modelled over plain
    reals.  A JavaScript string is the list of its UTF-16 code units. *)

From Stdlib Require Import Reals Lra Lia ZArith NArith List Bool.
From Stdlib Require String Ascii.
Import ListNotations.

Local Open Scope R_scope.

(** ** JavaScript numbers *)

Inductive num : Type :=
| Fin (r : R)
| PInf
| NInf
| NaN.

Definition of_Z (z : Z) : num := Fin (IZR z).

Definition Math_PI : num := Fin PI.

(** [r < s] as a boolean. *)
Definition Rltb (r s : R) : bool := if Rlt_dec r s then true else false.

(** [signed_inf s r] is the product of an infinity of sign [s]
    ([true] for [+]) with the finite [r]; also [r / +0] when [s] is
    [true]. *)
Definition signed_inf (s : bool) (r : R) : num :=
  if Rlt_dec 0 r then (if s then PInf else NInf)
  else if Rlt_dec r 0 then (if s then NInf else PInf)
  else NaN.

Definition js_add (v w : num) : num :=
  match v, w with
  | NaN, _ | _, NaN => NaN
  | Fin r, Fin s => Fin (r + s)
  | PInf, NInf | NInf, PInf => NaN
  | PInf, _ | _, PInf => PInf
  | NInf, _ | _, NInf => NInf
  end.

Definition js_mul (v w : num) : num :=
  match v, w with
  | NaN, _ | _, NaN => NaN
  | Fin r, Fin s => Fin (r * s)
  | Fin r, PInf | PInf, Fin r => signed_inf true r
  | Fin r, NInf | NInf, Fin r => signed_inf false r
  | PInf, PInf | NInf, NInf => PInf
  | PInf, NInf | NInf, PInf => NInf
  end.

Definition js_div (v w : num) : num :=
  match v, w with
  | NaN, _ | _, NaN => NaN
  | Fin r, Fin s => if Req_dec_T s 0 then signed_inf true r else Fin (r / s)
  | Fin _, PInf | Fin _, NInf => Fin 0
  | PInf, Fin s => if Rlt_dec s 0 then NInf else PInf
  | NInf, Fin s => if Rlt_dec s 0 then PInf else NInf
  | PInf, PInf | PInf, NInf | NInf, PInf | NInf, NInf => NaN
  end.

(** [v > w]; every comparison with [NaN] is false. *)
Definition js_gt (v w : num) : bool :=
  match v, w with
  | NaN, _ | _, NaN => false
  | Fin r, Fin s => Rltb s r
  | PInf, PInf => false
  | PInf, _ => true
  | _, PInf => false
  | _, NInf => match v with NInf => false | _ => true end
  | NInf, _ => false
  end.

Definition Math_abs (v : num) : num :=
  match v with
  | Fin r => Fin (Rabs r)
  | PInf | NInf => PInf
  | NaN => NaN
  end.

Definition Math_cos (v : num) : num :=
  match v with Fin r => Fin (cos r) | _ => NaN end.

Definition Math_sin (v : num) : num :=
  match v with Fin r => Fin (sin r) | _ => NaN end.

Definition Math_floor (v : num) : num :=
  match v with Fin r => Fin (IZR (Zfloor r)) | _ => v end.

Definition is_integral (e : R) : bool :=
  if Req_dec_T (IZR (Zfloor e)) e then true else false.

Definition is_odd_integral (e : R) : bool :=
  is_integral e && Z.odd (Zfloor e).

(** [pow_unit_cmp b big one small] chooses by comparing [|b|] with 1. *)
Definition pow_unit_cmp (b : R) (big one small : num) : num :=
  if Rlt_dec 1 (Rabs b) then big
  else if Req_dec_T (Rabs b) 1 then one
  else small.

(** [Math.pow], case by case as in ECMA-262, Number::exponentiate. *)
Definition Math_pow (base exponent : num) : num :=
  match exponent with
  | NaN => NaN
  | Fin e =>
      if Req_dec_T e 0 then Fin 1 else
      match base with
      | NaN => NaN
      | PInf => if Rlt_dec 0 e then PInf else Fin 0
      | NInf => if Rlt_dec 0 e
                then (if is_odd_integral e then NInf else PInf)
                else Fin 0
      | Fin b =>
          if Req_dec_T b 0 then (if Rlt_dec 0 e then Fin 0 else PInf)
          else if Rlt_dec 0 b then Fin (Rpower b e)
          else if is_integral e then Fin (powerRZ b (Zfloor e))
          else NaN
      end
  | PInf =>
      match base with
      | NaN => NaN
      | PInf | NInf => PInf
      | Fin b => pow_unit_cmp b PInf NaN (Fin 0)
      end
  | NInf =>
      match base with
      | NaN => NaN
      | PInf | NInf => Fin 0
      | Fin b => pow_unit_cmp b (Fin 0) NaN PInf
      end
  end.

(** [parseFloat(v.toFixed(1))]: the decimal with one fractional digit
    nearest to [v], ties away from zero; values of magnitude at least
    [10^21] and the special values print and parse back unchanged. *)
Definition toFixed1 (v : num) : num :=
  match v with
  | Fin r =>
      if Rle_dec (10 ^ 21) (Rabs r) then Fin r
      else if Rlt_dec r 0
           then Fin (- (IZR (Zfloor (- r * 10 + / 2)) / 10))
           else Fin (IZR (Zfloor (r * 10 + / 2)) / 10)
  | _ => v
  end.

(** ** The superformula evaluator (ParametricDesigner.tsx) *)

Module SuperformulaParams.
Record t : Type := mk {
  m : num;
  n1 : num;
  n2 : num;
  n3 : num;
  a : num;
  b : num;
  resolution : Z
}.
End SuperformulaParams.

Module Point.
Record t : Type := mk { x : num; y : num }.
End Point.

Definition scale : num := Fin 150.

(** The values taken by the loop counter of
    [for (let i = 0; i <= resolution; i++)]. *)
Definition loop_indices (resolution : Z) : list Z :=
  map Z.of_nat (seq 0 (Z.to_nat (resolution + 1))).

(** [phi] at counter [i]: [(i * 2 * Math.PI) / p.resolution]. *)
Definition phi_at (p : SuperformulaParams.t) (i : Z) : num :=
  js_div (js_mul (js_mul (of_Z i) (Fin 2)) Math_PI)
         (of_Z (SuperformulaParams.resolution p)).

(** The radius [r] of one iteration, after the clamp. *)
Definition radius (p : SuperformulaParams.t) (phi : num) : num :=
  let r := Fin 0 in
  let t1 :=
    Math_pow
      (Math_abs (js_div (Math_cos (js_div (js_mul (SuperformulaParams.m p) phi) (Fin 4)))
                        (SuperformulaParams.a p)))
      (SuperformulaParams.n2 p) in
  let t2 :=
    Math_pow
      (Math_abs (js_div (Math_sin (js_div (js_mul (SuperformulaParams.m p) phi) (Fin 4)))
                        (SuperformulaParams.b p)))
      (SuperformulaParams.n3 p) in
  let r :=
    if js_gt (Math_abs (js_add t1 t2)) (Fin 0)
    then Math_pow (js_add t1 t2) (js_div (Fin (-1)) (SuperformulaParams.n1 p))
    else r in
  let r := if js_gt r (Fin 20) then Fin 20 else r in
  r.

(** The point pushed by one iteration. *)
Definition point_at (p : SuperformulaParams.t) (phi : num) : Point.t :=
  let r := radius p phi in
  {| Point.x := js_add (Fin 250) (js_mul (js_mul r (Math_cos phi)) scale);
     Point.y := js_add (Fin 250) (js_mul (js_mul r (Math_sin phi)) scale) |}.

Definition calculatePoints (p : SuperformulaParams.t) : list Point.t :=
  fold_left (fun points i => points ++ [point_at p (phi_at p i)])
            (loop_indices (SuperformulaParams.resolution p)) [].

(** [handleRandomize], as a function of the four values returned by its
    calls of [Math.random()], in evaluation order. *)
Definition handleRandomize (u1 u2 u3 u4 : num) : SuperformulaParams.t :=
  {| SuperformulaParams.m := js_add (Math_floor (js_mul u1 (Fin 16))) (Fin 2);
     SuperformulaParams.n1 := toFixed1 (js_add (js_mul u2 (Fin 10)) (Fin 0.1));
     SuperformulaParams.n2 := toFixed1 (js_add (js_mul u3 (Fin 5)) (Fin 0.1));
     SuperformulaParams.n3 := toFixed1 (js_add (js_mul u4 (Fin 5)) (Fin 0.1));
     SuperformulaParams.a := Fin 1;
     SuperformulaParams.b := Fin 1;
     SuperformulaParams.resolution := 360 |}.

(** The presets offered by the parametric designer. *)
Definition PRESETS : list SuperformulaParams.t :=
  [ SuperformulaParams.mk (Fin 5) (Fin 0.5) (Fin 1.7) (Fin 1.7) (Fin 1) (Fin 1) 360;
    SuperformulaParams.mk (Fin 4) (Fin 10) (Fin 10) (Fin 10) (Fin 1) (Fin 1) 360;
    SuperformulaParams.mk (Fin 6) (Fin 0.3) (Fin 0.3) (Fin 0.3) (Fin 1) (Fin 1) 720;
    SuperformulaParams.mk (Fin 8) (Fin 5) (Fin 2) (Fin 7) (Fin 1) (Fin 1) 360 ].

Definition Starfish : SuperformulaParams.t :=
  nth 0 PRESETS (SuperformulaParams.mk NaN NaN NaN NaN NaN NaN 0).

(** ** What is asked of the evaluator

    The documented domain of the parameters, and what is asked of an
    emitted point. *)
Definition positive (v : num) : Prop :=
  match v with Fin r => 0 < r | _ => False end.

Definition nonnegative (v : num) : Prop :=
  match v with Fin r => 0 <= r | _ => False end.

(** Both coordinates are finite and the point is at most [bound] away
    from the center (250, 250). *)
Definition within (bound : R) (pt : Point.t) : Prop :=
  match Point.x pt, Point.y pt with
  | Fin px, Fin py => (px - 250) ^ 2 + (py - 250) ^ 2 <= bound ^ 2
  | _, _ => False
  end.

(** A value that is not negative: a real [>= 0], [+Infinity], or [NaN]. *)
Definition radial (v : num) : Prop :=
  match v with Fin r => 0 <= r | NInf => False | _ => True end.

(** The sum [t1 + t2] of one iteration, and the radius as a function of
    it (the guard, the power, the clamp). *)
Definition sum_terms (p : SuperformulaParams.t) (phi : num) : num :=
  js_add
    (Math_pow
      (Math_abs (js_div (Math_cos (js_div (js_mul (SuperformulaParams.m p) phi) (Fin 4)))
                        (SuperformulaParams.a p)))
      (SuperformulaParams.n2 p))
    (Math_pow
      (Math_abs (js_div (Math_sin (js_div (js_mul (SuperformulaParams.m p) phi) (Fin 4)))
                        (SuperformulaParams.b p)))
      (SuperformulaParams.n3 p)).

Definition radius_of_sum (vn1 s : num) : num :=
  let r := if js_gt (Math_abs s) (Fin 0)
           then Math_pow s (js_div (Fin (-1)) vn1) else Fin 0 in
  if js_gt r (Fin 20) then Fin 20 else r.

(** Parameters outside the documented domain: [n1 = 0]. *)
Definition zero_n1 : SuperformulaParams.t :=
  SuperformulaParams.mk (Fin 0) (Fin 0) (Fin 1) (Fin 1) (Fin 1) (Fin 1) 1.

(** Parameters outside the documented domain: [m] and [n1] negative. *)
Definition steep : SuperformulaParams.t :=
  SuperformulaParams.mk (Fin (-1)) (Fin (-0.1)) (Fin 1) (Fin 1) (Fin 1) (Fin 1) 2.

(** The unit circle. *)
Definition circle : SuperformulaParams.t :=
  SuperformulaParams.mk (Fin 0) (Fin 1) (Fin 1) (Fin 1) (Fin 1) (Fin 1) 4.

(** Symmetry 1 with unequal scale denominators. *)
Definition lopsided : SuperformulaParams.t :=
  SuperformulaParams.mk (Fin 1) (Fin 1) (Fin 1) (Fin 1) (Fin 2) (Fin 1) 1.

(** ** The 2D canvas context (the part of it [drawTree] uses) *)

Definition point : Type := (R * R)%type.

(** The current transformation matrix [[a c e; b d f; 0 0 1]]. *)
Module Matrix.
Record t : Type := mk { a : R; b : R; c : R; d : R; e : R; f : R }.

Definition identity : t := mk 1 0 0 1 0 0.

Definition apply (M : t) (p : point) : point :=
  (a M * fst p + c M * snd p + e M, b M * fst p + d M * snd p + f M).

Definition translate (tx ty : R) (M : t) : t :=
  mk (a M) (b M) (c M) (d M)
     (a M * tx + c M * ty + e M) (b M * tx + d M * ty + f M).

Definition rotate (theta : R) (M : t) : t :=
  mk (a M * cos theta + c M * sin theta) (b M * cos theta + d M * sin theta)
     (- a M * sin theta + c M * cos theta) (- b M * sin theta + d M * cos theta)
     (e M) (f M).

Definition scale (sx sy : R) (M : t) : t :=
  mk (a M * sx) (b M * sx) (c M * sy) (d M * sy) (e M) (f M).
End Matrix.

(** One stroked line.  [style] stands for the [strokeStyle] colour: the
    colour string is a function of [currentDepth] (and of the fixed
    [params.depth]), and the model keeps [currentDepth] in its place. *)
Module Segment.
Record t : Type := mk { start : point; stop : point; style : Z; width : R }.
End Segment.

Module Ctx.
Record t : Type := mk {
  ctm : Matrix.t;
  saved : list (Matrix.t * Z * R);
  path : list (point * point);
  pen : option point;
  strokeStyle : Z;
  lineWidth : R;
  strokes : list Segment.t
}.

(** The state of a context whose canvas has just been resized: identity
    transformation, empty stack and path, default styles, nothing
    drawn. *)
Definition fresh : t := mk Matrix.identity [] [] None 0%Z 1 [].

Definition beginPath (c : t) : t :=
  mk (ctm c) (saved c) [] None (strokeStyle c) (lineWidth c) (strokes c).

Definition save (c : t) : t :=
  mk (ctm c) ((ctm c, strokeStyle c, lineWidth c) :: saved c)
     (path c) (pen c) (strokeStyle c) (lineWidth c) (strokes c).

Definition restore (c : t) : t :=
  match saved c with
  | [] => c
  | (M, s, w) :: rest => mk M rest (path c) (pen c) s w (strokes c)
  end.

Definition transform (g : Matrix.t -> Matrix.t) (c : t) : t :=
  mk (g (ctm c)) (saved c) (path c) (pen c) (strokeStyle c) (lineWidth c)
     (strokes c).

Definition translate (tx ty : R) : t -> t := transform (Matrix.translate tx ty).
Definition rotate (theta : R) : t -> t := transform (Matrix.rotate theta).
Definition scale (sx sy : R) : t -> t := transform (Matrix.scale sx sy).

Definition moveTo (px py : R) (c : t) : t :=
  mk (ctm c) (saved c) (path c) (Some (Matrix.apply (ctm c) (px, py)))
     (strokeStyle c) (lineWidth c) (strokes c).

Definition lineTo (px py : R) (c : t) : t :=
  let q := Matrix.apply (ctm c) (px, py) in
  match pen c with
  | None => mk (ctm c) (saved c) (path c) (Some q)
               (strokeStyle c) (lineWidth c) (strokes c)
  | Some p => mk (ctm c) (saved c) (path c ++ [(p, q)]) (Some q)
                 (strokeStyle c) (lineWidth c) (strokes c)
  end.

Definition set_strokeStyle (s : Z) (c : t) : t :=
  mk (ctm c) (saved c) (path c) (pen c) s (lineWidth c) (strokes c).

Definition set_lineWidth (w : R) (c : t) : t :=
  mk (ctm c) (saved c) (path c) (pen c) (strokeStyle c) w (strokes c).

Definition stroke (c : t) : t :=
  mk (ctm c) (saved c) (path c) (pen c) (strokeStyle c) (lineWidth c)
     (strokes c ++
      map (fun l => Segment.mk (fst l) (snd l) (strokeStyle c) (lineWidth c))
          (path c)).
End Ctx.

(** ** The fractal tree generator (AlgorithmicDesigner.tsx) *)

Module FractalParams.
Record t : Type := mk {
  angle : R;
  depth : Z;
  lengthMultiplier : R;
  branchCount : Z
}.
End FractalParams.

(** The component state, as one render of the component closes over it. *)
Module View.
Record t : Type := mk {
  params : FractalParams.t;
  growth : R;
  isAnimating : bool;
  enableWind : bool;
  time : R
}.

(** [useState] initial values. *)
Definition initial : t :=
  mk (FractalParams.mk 25 10 0.7 2) 0 true false 0.
End View.

Definition windAngle (v : View.t) (currentDepth : Z) : R :=
  if View.enableWind v
  then sin (View.time v * 0.002 + IZR currentDepth) * (IZR currentDepth * 0.5)
  else 0.

(** [len * Math.min(1, growth * (params.depth / 2))] *)
Definition drawnLen (v : View.t) (len : R) : R :=
  len * Rmin 1 (View.growth v * (IZR (FractalParams.depth (View.params v)) / 2)).

Definition and_then {A B : Type} (o : option A) (k : A -> option B) : option B :=
  match o with Some r => k r | None => None end.

Notation "'let*' c ':=' o 'in' k" := (and_then o (fun c => k))
  (at level 10, c name, o at level 100, k at level 200).

(** [drawTree]; the canvas context is threaded through, [None] means
    that the recursion fuel ran out. *)
Fixpoint drawTree_fuel (fuel : nat) (v : View.t)
    (startX startY len angle : R) (depth currentDepth : Z)
    (ctx : Ctx.t) : option Ctx.t :=
  match fuel with
  | O => None
  | S fuel' =>
      let params := View.params v in
      let ctx := Ctx.beginPath ctx in
      let ctx := Ctx.save ctx in
      let ctx := Ctx.translate startX startY ctx in
      let ctx := Ctx.rotate ((angle + windAngle v currentDepth) * PI / 180) ctx in
      let ctx := Ctx.moveTo 0 0 ctx in
      let ctx := Ctx.lineTo 0 (- drawnLen v len) ctx in
      let ctx := Ctx.set_strokeStyle currentDepth ctx in
      let ctx :=
        Ctx.set_lineWidth
          (Rmax 0.5
             (IZR (FractalParams.depth params - currentDepth + 1) * 0.8)) ctx in
      let ctx := Ctx.stroke ctx in
      if (depth <? 1)%Z then Some (Ctx.restore ctx)
      else
        let nextLen := len * FractalParams.lengthMultiplier params in
        let* ctx :=
          drawTree_fuel fuel' v 0 (- drawnLen v len) nextLen
            (FractalParams.angle params) (depth - 1) (currentDepth + 1) ctx in
        let* ctx :=
          drawTree_fuel fuel' v 0 (- drawnLen v len) nextLen
            (- FractalParams.angle params) (depth - 1) (currentDepth + 1) ctx in
        let* ctx :=
          if (2 <? FractalParams.branchCount params)%Z
          then drawTree_fuel fuel' v 0 (- drawnLen v len) nextLen
                 0 (depth - 1) (currentDepth + 1) ctx
          else Some ctx in
        Some (Ctx.restore ctx)
  end.

(** The remaining depth drops by one per level and the recursion stops
    below 1, so [depth + 1] levels are enough. *)
Definition drawTree (v : View.t) (startX startY len angle : R)
    (depth currentDepth : Z) (ctx : Ctx.t) : option Ctx.t :=
  drawTree_fuel (S (Z.to_nat depth)) v startX startY len angle
    depth currentDepth ctx.

(** [renderFrame] on a canvas whose bounding rectangle is [width] by
    [height], with [window.devicePixelRatio = ratio]. *)
Definition renderFrame (v : View.t) (ratio width height : R) : option Ctx.t :=
  let dpr := if Req_dec_T ratio 0 then 1 else ratio in
  let ctx := Ctx.scale dpr dpr Ctx.fresh in
  let startLen := height * 0.25 in
  drawTree v (width / 2) height startLen 0
    (FractalParams.depth (View.params v)) 0 ctx.

(** ** The animation state *)

(** The state updates of one run of [animate]; [now] is [Date.now()]. *)
Definition animate (now : R) (v : View.t) : View.t :=
  View.mk (View.params v)
    (if View.isAnimating v && Rltb (View.growth v) 1
     then Rmin (View.growth v + 0.01) 1 else View.growth v)
    (View.isAnimating v) (View.enableWind v)
    (if View.enableWind v then now else View.time v).

Definition resetAnimation (v : View.t) : View.t :=
  View.mk (View.params v) 0 true (View.enableWind v) (View.time v).

Definition setParams (p : FractalParams.t) (v : View.t) : View.t :=
  View.mk p (View.growth v) (View.isAnimating v) (View.enableWind v) (View.time v).

Definition setGrowth (g : R) (v : View.t) : View.t :=
  View.mk (View.params v) g (View.isAnimating v) (View.enableWind v) (View.time v).

Definition setEnableWind (w : bool) (v : View.t) : View.t :=
  View.mk (View.params v) (View.growth v) (View.isAnimating v) w (View.time v).

(** What can happen to the mounted component: an animation frame, a
    change of one of the three sliders, a click on one of the two
    buttons.  The state updates of one handler are applied together,
    before the next render. *)
Inductive Event : Type :=
| AnimationFrame (now : R)
| AngleChange (value : R)
| DepthChange (value : Z)
| LengthChange (value : R)
| WindClick
| RegrowClick.

Definition handle (ev : Event) (v : View.t) : View.t :=
  let p := View.params v in
  match ev with
  | AnimationFrame now => animate now v
  | AngleChange value =>
      setParams (FractalParams.mk value (FractalParams.depth p)
                   (FractalParams.lengthMultiplier p) (FractalParams.branchCount p)) v
  | DepthChange value =>
      setGrowth 0
        (setParams (FractalParams.mk (FractalParams.angle p) value
                      (FractalParams.lengthMultiplier p) (FractalParams.branchCount p)) v)
  | LengthChange value =>
      setParams (FractalParams.mk (FractalParams.angle p) (FractalParams.depth p)
                   value (FractalParams.branchCount p)) v
  | WindClick => setEnableWind (negb (View.enableWind v)) v
  | RegrowClick => resetAnimation v
  end.

(** The states from which frames are rendered along a run: [animate]
    calls [renderFrame] with the state its render closed over, that is
    the state before its own updates. *)
Fixpoint frames (evs : list Event) (v : View.t) : list View.t :=
  match evs with
  | [] => []
  | AnimationFrame now :: rest => v :: frames rest (handle (AnimationFrame now) v)
  | ev :: rest => frames rest (handle ev v)
  end.

(** ** The segments of one call, as a list

    [tree_segments n v M sx sy len angle cd] lists, in drawing order,
    the lines stroked by a call of [drawTree] that finds the
    transformation [M] in the context and recurses [n] levels deep. *)

Definition branch_matrix (v : View.t) (M : Matrix.t)
    (startX startY angle : R) (currentDepth : Z) : Matrix.t :=
  Matrix.rotate ((angle + windAngle v currentDepth) * PI / 180)
    (Matrix.translate startX startY M).

Definition branch_width (v : View.t) (currentDepth : Z) : R :=
  Rmax 0.5 (IZR (FractalParams.depth (View.params v) - currentDepth + 1) * 0.8).

Definition branch_segment (v : View.t) (M : Matrix.t)
    (startX startY len angle : R) (currentDepth : Z) : Segment.t :=
  let M' := branch_matrix v M startX startY angle currentDepth in
  Segment.mk (Matrix.apply M' (0, 0)) (Matrix.apply M' (0, - drawnLen v len))
             currentDepth (branch_width v currentDepth).

Fixpoint tree_segments (n : nat) (v : View.t) (M : Matrix.t)
    (startX startY len angle : R) (currentDepth : Z) : list Segment.t :=
  let params := View.params v in
  let M' := branch_matrix v M startX startY angle currentDepth in
  let seg := branch_segment v M startX startY len angle currentDepth in
  match n with
  | O => [seg]
  | S n' =>
      let child := fun angle' =>
        tree_segments n' v M' 0 (- drawnLen v len)
          (len * FractalParams.lengthMultiplier params) angle' (currentDepth + 1) in
      seg :: child (FractalParams.angle params)
          ++ child (- FractalParams.angle params)
          ++ (if (2 <? FractalParams.branchCount params)%Z then child 0 else [])
  end.

(** [Rooted o l segs]: [segs] is, in drawing order, a tree of segments
    whose trunk starts at [o] and has depth index [l], in which every
    child has the depth index of its parent plus one and starts where
    its parent stops. *)
#[warnings="-register-all"]
Inductive Rooted : point -> Z -> list Segment.t -> Prop :=
| Rooted_node (s : Segment.t) (kids : list (list Segment.t)) :
    Forall (Rooted (Segment.stop s) (Segment.style s + 1)) kids ->
    Rooted (Segment.start s) (Segment.style s) (s :: concat kids).

(** The length of a stroked line, and its square. *)
Definition segment_length2 (s : Segment.t) : R :=
  (fst (Segment.stop s) - fst (Segment.start s)) ^ 2 +
  (snd (Segment.stop s) - snd (Segment.start s)) ^ 2.

Definition segment_length (s : Segment.t) : R := sqrt (segment_length2 s).

(** [Math.min(1, growth * (params.depth / 2))] *)
Definition growth_factor (v : View.t) : R :=
  Rmin 1 (View.growth v * (IZR (FractalParams.depth (View.params v)) / 2)).

(** The remaining length of the call that stroked [s], in a tree whose
    trunk has remaining length [len] and depth index [currentDepth]. *)
Definition remaining_length (v : View.t) (len : R) (currentDepth : Z)
    (s : Segment.t) : R :=
  len * FractalParams.lengthMultiplier (View.params v)
        ^ Z.to_nat (Segment.style s - currentDepth).

(** [M] turns and moves the plane and scales it by [k]. *)
Definition similarity (k : R) (M : Matrix.t) : Prop :=
  Matrix.a M * Matrix.a M + Matrix.b M * Matrix.b M = k * k /\
  Matrix.c M * Matrix.c M + Matrix.d M * Matrix.d M = k * k /\
  Matrix.a M * Matrix.c M + Matrix.b M * Matrix.d M = 0.

(** The initial view once fully grown. *)
Definition grown : View.t :=
  View.mk (View.params View.initial) 1 true false 0.

(** What a call leaves in the context [c'] it returns, started in [c]:
    the transformation and the stack it found, and its segments after
    those already stroked. *)
Definition drawn (c c' : Ctx.t) (segs : list Segment.t) : Prop :=
  Ctx.ctm c' = Ctx.ctm c /\ Ctx.saved c' = Ctx.saved c /\
  Ctx.strokes c' = Ctx.strokes c ++ segs.

(** A run in which the depth slider is moved between two frames. *)
Definition depth_moved : list Event :=
  [AnimationFrame 0; AnimationFrame 16; DepthChange 5; AnimationFrame 33].

(** ** More of the algorithmic designer *)

(** The state after a run of events. *)
Definition run (evs : list Event) (v : View.t) : View.t :=
  fold_left (fun s ev => handle ev s) evs v.

(** The number shown beside "Nodes:":
    [Math.pow(params.branchCount === 2 ? 2 : 3, params.depth + 1)]. *)
Definition nodes_label (p : FractalParams.t) : num :=
  Math_pow (of_Z (if (FractalParams.branchCount p =? 2)%Z then 2 else 3))
           (of_Z (FractalParams.depth p + 1)).

(** The device pixel ratio [renderFrame] works with:
    [window.devicePixelRatio || 1]. *)
Definition pixel_ratio (ratio : R) : R := if Req_dec_T ratio 0 then 1 else ratio.

(** A view in the middle of its growth, with wind. *)
Definition windy : View.t :=
  View.mk (View.params View.initial) 0.5 true true 1000.

(** ** More number operations *)

Definition js_sub (v w : num) : num :=
  match v, w with
  | NaN, _ | _, NaN => NaN
  | Fin r, Fin s => Fin (r - s)
  | PInf, PInf | NInf, NInf => NaN
  | PInf, _ | _, NInf => PInf
  | NInf, _ | _, PInf => NInf
  end.




Definition Math_max (v w : num) : num :=
  match v, w with
  | NaN, _ | _, NaN => NaN
  | _, _ => if js_gt v w then v else w
  end.

Definition Math_min (v w : num) : num :=
  match v, w with
  | NaN, _ | _, NaN => NaN
  | _, _ => if js_gt v w then w else v
  end.

(** ** More of the parametric designer *)

(** The rows of the "Real-time Analysis" chart. *)
Module PerformanceRow.
Record t : Type := mk { step : num; stress : num; material : num }.
End PerformanceRow.

Definition performanceData (p : SuperformulaParams.t) : list PerformanceRow.t :=
  map (fun k : nat =>
         let i := of_Z (Z.of_nat k) in
         PerformanceRow.mk i
           (js_add
              (Math_abs
                 (js_mul (Math_sin (js_add (js_mul i (Fin 0.5)) (SuperformulaParams.m p)))
                         (Fin 80)))
              (Fin 20))
           (js_add
              (Math_abs
                 (js_mul (js_mul (Math_cos (js_mul i (Fin 0.5))) (SuperformulaParams.n1 p))
                         (Fin 10)))
              (Fin 40)))
      (seq 0 12).




(** Parameters with no sample step. *)
Definition zero_resolution : SuperformulaParams.t :=
  SuperformulaParams.mk (Fin 5) (Fin 1) (Fin 1) (Fin 1) (Fin 1) (Fin 1) 0.

(** ** The comparison slider of the image editor (ImageEditor.tsx)

    [handleSliderMove], as a function of the pointer position and of
    the left edge and width of the slider: the value given to
    [setComparePos]. *)
Definition handleSliderMove (clientX left width : num) : num :=
  let pos := js_mul (js_div (js_sub clientX left) width) (Fin 100) in
  Math_max (Fin 0) (Math_min (Fin 100) pos).

(** ** JavaScript strings

    A string is the list of its UTF-16 code units. *)
Definition jsstring : Type := list N.

Module Text.
Import Stdlib.Strings.String Stdlib.Strings.Ascii.

(** The string of an ASCII literal. *)
Definition lit (s : string) : jsstring :=
  List.map N_of_ascii (list_ascii_of_string s).

(** The double quote. *)
Definition dq : jsstring := [34%N].

(** [name="value"] *)
Definition attr (name value : string) : jsstring :=
  lit name ++ lit "=" ++ dq ++ lit value ++ dq.

Definition fence : jsstring := lit "```".
Definition fence_xml : jsstring := lit "```xml".
Definition fence_svg : jsstring := lit "```svg".
Definition xml : jsstring := lit "xml".
Definition svg : jsstring := lit "svg".
Definition Error : jsstring := lit "Error".

(** The placeholder returned when the reply has no text. *)
Definition error_svg : jsstring :=
  lit "<svg " ++ attr "viewBox" "0 0 500 500" ++ lit "><text " ++
  attr "x" "50%" ++ lit " " ++ attr "y" "50%" ++ lit " " ++
  attr "fill" "#ef4444" ++ lit " " ++ attr "text-anchor" "middle" ++
  lit ">Error generating</text></svg>".

(** The placeholder returned when the call throws. *)
Definition failed_svg : jsstring :=
  lit "<svg " ++ attr "viewBox" "0 0 500 500" ++ lit "><text " ++
  attr "x" "50%" ++ lit " " ++ attr "y" "50%" ++ lit " " ++
  attr "fill" "#ef4444" ++ lit " " ++ attr "text-anchor" "middle" ++ lit " " ++
  attr "font-family" "monospace" ++ lit ">Generation Failed</text></svg>".

Definition data_scheme : jsstring := lit "data:".
Definition image_png : jsstring := lit "image/png".
Definition base64_marker : jsstring := lit ";base64,".
Definition comma : N := 44.
Definition colon : N := 58.
Definition semicolon : N := 59.
End Text.

(** White space and line terminators, the code units [trim] removes. *)
Definition is_space (c : N) : bool :=
  existsb (N.eqb c)
    [9; 10; 11; 12; 13; 32; 160; 5760; 8232; 8233; 8239; 8287; 12288; 65279]%N
  || (8192 <=? c)%N && (c <=? 8202)%N.

Fixpoint drop_space (s : jsstring) : jsstring :=
  match s with
  | c :: rest => if is_space c then drop_space rest else s
  | [] => []
  end.

Definition trim (s : jsstring) : jsstring :=
  rev (drop_space (rev (drop_space s))).

Fixpoint startsWith (prefix s : jsstring) : bool :=
  match prefix, s with
  | [], _ => true
  | _ :: _, [] => false
  | c :: prefix', d :: s' => (c =? d)%N && startsWith prefix' s'
  end.

Definition endsWith (suffix s : jsstring) : bool :=
  startsWith (rev suffix) (rev s).

Fixpoint includes (needle s : jsstring) : bool :=
  startsWith needle s ||
  match s with
  | [] => false
  | _ :: rest => includes needle rest
  end.

(** [s.replace(/^prefix/, '')] and [s.replace(/suffix$/, '')] for a
    literal prefix or suffix. *)
Definition strip_prefix (prefix s : jsstring) : jsstring :=
  if startsWith prefix s then skipn (length prefix) s else s.

Definition strip_suffix (suffix s : jsstring) : jsstring :=
  if endsWith suffix s then firstn (length s - length suffix) s else s.

(** [s.split(sep)] for a separator of one code unit. *)
Fixpoint split (sep : N) (s : jsstring) : list jsstring :=
  match s with
  | [] => [[]]
  | c :: rest =>
      if (c =? sep)%N then [] :: split sep rest
      else match split sep rest with
           | piece :: pieces => (c :: piece) :: pieces
           | [] => [[c]]
           end
  end.

(** The decimal digits of a natural number, [n.toString()]. *)
Fixpoint digits (d : Decimal.uint) : jsstring :=
  match d with
  | Decimal.Nil => []
  | Decimal.D0 d' => 48%N :: digits d'
  | Decimal.D1 d' => 49%N :: digits d'
  | Decimal.D2 d' => 50%N :: digits d'
  | Decimal.D3 d' => 51%N :: digits d'
  | Decimal.D4 d' => 52%N :: digits d'
  | Decimal.D5 d' => 53%N :: digits d'
  | Decimal.D6 d' => 54%N :: digits d'
  | Decimal.D7 d' => 55%N :: digits d'
  | Decimal.D8 d' => 56%N :: digits d'
  | Decimal.D9 d' => 57%N :: digits d'
  end.

Definition toString (n : N) : jsstring := digits (N.to_uint n).

(** ** The SVG generation service (geminiService.ts) *)

(** What the call of the model gives: it throws, or it returns a
    response whose [text] is a string or undefined. *)
Inductive Response : Type :=
| Threw
| Replied (text : option jsstring).

(** One line of the cleanup:
    [if (s.startsWith(f)) s = s.replace(/^f/, '').replace(/```$/, '')]. *)
Definition unfence (f s : jsstring) : jsstring :=
  if startsWith f s then strip_suffix Text.fence (strip_prefix f s) else s.

(** [generateSvgFromPrompt], as a function of what the call gives. *)
Definition generateSvgFromPrompt (r : Response) : jsstring :=
  match r with
  | Threw => Text.failed_svg
  | Replied None => Text.error_svg
  | Replied (Some []) => Text.error_svg
  | Replied (Some text) =>
      let cleanSvg := trim text in
      let cleanSvg := unfence Text.fence_xml cleanSvg in
      let cleanSvg := unfence Text.fence_svg cleanSvg in
      let cleanSvg := unfence Text.fence cleanSvg in
      cleanSvg
  end.

(** [`data:image/png;base64,${data}`], the value [editImage] returns. *)
Definition png_data_url (data : jsstring) : jsstring :=
  Text.data_scheme ++ Text.image_png ++ Text.base64_marker ++ data.

(** The first two lines of the [try] of the image editor's
    [handleGenerate]: the mime type and the data of the selected image,
    [None] when [meta.split(':')[1]] is undefined and the next [split]
    throws; the data is undefined when the string has no comma. *)
Definition parse_data_url (selectedImage : jsstring)
    : option (jsstring * option jsstring) :=
  let parts := split Text.comma selectedImage in
  let meta := nth 0 parts [] in
  let data := nth_error parts 1 in
  match nth_error (split Text.colon meta) 1 with
  | None => None
  | Some rest => Some (nth 0 (split Text.semicolon rest) [], data)
  end.

(** ** The AI designer (AiDesigner.tsx) *)

Inductive ViewMode : Type := preview | code.

Module DesignHistoryItem.
Record t : Type := mk {
  id : jsstring;
  prompt : jsstring;
  svg : jsstring;
  timestamp : N
}.
End DesignHistoryItem.

Module AiState.
Record t : Type := mk {
  prompt : jsstring;
  isLoading : bool;
  currentSvg : option jsstring;
  history : list DesignHistoryItem.t;
  viewMode : ViewMode
}.

(** [useState] initial values. *)
Definition initial : t := mk [] false None [] preview.
End AiState.

(** [!prompt.trim()] *)
Definition is_blank (s : jsstring) : bool :=
  match trim s with [] => true | _ :: _ => false end.

(** [handleGenerate] up to its [await]: [None] when it returns at once,
    without a request. *)
Definition handleGenerate_start (s : AiState.t) : option AiState.t :=
  if is_blank (AiState.prompt s) then None
  else Some (AiState.mk (AiState.prompt s) true (AiState.currentSvg s)
                        (AiState.history s) (AiState.viewMode s)).

(** [handleGenerate] from its [await] on: [prompt] is the prompt the
    handler closed over, [r] what the call gave, [now1] and [now2] the
    two values of [Date.now()]. *)
Definition handleGenerate_finish (prompt : jsstring) (r : Response)
    (now1 now2 : N) (s : AiState.t) : AiState.t :=
  let result := generateSvgFromPrompt r in
  if negb (includes Text.Error result) then
    let newItem := DesignHistoryItem.mk (toString now1) prompt result now2 in
    AiState.mk (AiState.prompt s) false (Some result)
               (firstn 5 (newItem :: AiState.history s)) preview
  else
    AiState.mk (AiState.prompt s) false (Some result)
               (AiState.history s) (AiState.viewMode s).

Definition loadHistoryItem (item : DesignHistoryItem.t) (s : AiState.t) : AiState.t :=
  AiState.mk (DesignHistoryItem.prompt item) (AiState.isLoading s)
             (Some (DesignHistoryItem.svg item)) (AiState.history s) preview.

(** What can happen to the mounted designer: typing in the prompt, a
    click on the button (disabled while loading or with an empty
    prompt), the end of a request, a click on a history entry, a click
    on one of the two view buttons. *)
Inductive AiEvent : Type :=
| PromptInput (value : jsstring)
| GenerateClick
| GenerateSettled (prompt : jsstring) (r : Response) (now1 now2 : N)
| HistoryClick (item : DesignHistoryItem.t)
| ModeClick (mode : ViewMode).

Definition ai_handle (ev : AiEvent) (s : AiState.t) : AiState.t :=
  match ev with
  | PromptInput value =>
      AiState.mk value (AiState.isLoading s) (AiState.currentSvg s)
                 (AiState.history s) (AiState.viewMode s)
  | GenerateClick =>
      if AiState.isLoading s || match AiState.prompt s with [] => true | _ => false end
      then s
      else match handleGenerate_start s with Some s' => s' | None => s end
  | GenerateSettled prompt r now1 now2 => handleGenerate_finish prompt r now1 now2 s
  | HistoryClick item => loadHistoryItem item s
  | ModeClick mode =>
      AiState.mk (AiState.prompt s) (AiState.isLoading s) (AiState.currentSvg s)
                 (AiState.history s) mode
  end.

Definition ai_run (evs : list AiEvent) (s : AiState.t) : AiState.t :=
  fold_left (fun st ev => ai_handle ev st) evs s.

(** An item in the history is one that was not taken for an error. *)
Definition stored_ok (item : DesignHistoryItem.t) : Prop :=
  includes Text.Error (DesignHistoryItem.svg item) = false.

(** [part_of s t]: [s] is [t] with some code units cut off at its two
    ends. *)
Definition part_of (s t : jsstring) : Prop :=
  exists pre post : jsstring, t = pre ++ s ++ post.

(** A run of the AI designer: two generations, the second one failing. *)
Definition two_generations : list AiEvent :=
  [PromptInput Text.svg; GenerateClick;
   GenerateSettled Text.svg (Replied (Some Text.svg)) 1000 1001;
   GenerateClick; GenerateSettled Text.svg Threw 2000 2001].

(** * Properties *)

(** ** The loop of [calculatePoints] *)

Section PushLoop.
Context {A B : Type} (f : A -> B).

Lemma fold_left_push (l : list A) (acc : list B) :
  fold_left (fun points i => points ++ [f i]) l acc = acc ++ map f l.
Proof.
  revert acc; induction l as [|i l IH]; intros acc; simpl.
  - now rewrite app_nil_r.
  - now rewrite IH, <- app_assoc.
Qed.
End PushLoop.

Lemma calculatePoints_map (p : SuperformulaParams.t) :
  calculatePoints p =
  map (fun i => point_at p (phi_at p i))
      (loop_indices (SuperformulaParams.resolution p)).
Proof. unfold calculatePoints; now rewrite fold_left_push. Qed.

Lemma loop_indices_length (n : Z) :
  length (loop_indices n) = Z.to_nat (n + 1).
Proof. unfold loop_indices; now rewrite length_map, length_seq. Qed.

Lemma loop_indices_nth (n i : Z) :
  (0 <= i <= n)%Z -> nth_error (loop_indices n) (Z.to_nat i) = Some i.
Proof.
  intros Hi; unfold loop_indices.
  rewrite nth_error_map, nth_error_seq.
  destruct (Nat.ltb_spec (Z.to_nat i) (Z.to_nat (n + 1))) as [_|Hge]; [|lia].
  simpl; f_equal; lia.
Qed.

Lemma phi_at_finite (p : SuperformulaParams.t) (i : Z) :
  (SuperformulaParams.resolution p <> 0)%Z ->
  phi_at p i = Fin (IZR i * 2 * PI / IZR (SuperformulaParams.resolution p)).
Proof.
  intros Hres; unfold phi_at, of_Z, Math_PI; simpl.
  destruct (Req_dec_T _ 0) as [E|_]; [|reflexivity].
  now apply eq_IZR in E.
Qed.

Lemma calculatePoints_nth (p : SuperformulaParams.t) (i : Z) :
  (SuperformulaParams.resolution p <> 0)%Z ->
  (0 <= i <= SuperformulaParams.resolution p)%Z ->
  nth_error (calculatePoints p) (Z.to_nat i) =
  Some (point_at p (Fin (IZR i * 2 * PI / IZR (SuperformulaParams.resolution p)))).
Proof.
  intros Hres Hi; rewrite calculatePoints_map.
  rewrite nth_error_map, (loop_indices_nth _ _ Hi); simpl.
  now rewrite phi_at_finite.
Qed.

Lemma calculatePoints_first (p : SuperformulaParams.t) :
  (0 < SuperformulaParams.resolution p)%Z ->
  nth_error (calculatePoints p) 0 = Some (point_at p (Fin 0)).
Proof.
  intros Hres; change 0%nat with (Z.to_nat 0).
  rewrite calculatePoints_nth by lia; do 3 f_equal; lra.
Qed.

Lemma calculatePoints_last (p : SuperformulaParams.t) :
  (0 < SuperformulaParams.resolution p)%Z ->
  nth_error (calculatePoints p) (Z.to_nat (SuperformulaParams.resolution p)) =
  Some (point_at p (Fin (2 * PI))).
Proof.
  intros Hres; rewrite calculatePoints_nth by lia; do 3 f_equal.
  field; apply not_0_IZR; lia.
Qed.

(** C1: with [resolution > 0], [calculatePoints] returns
    [resolution + 1] points, and the point at position [i], for
    [i = 0 .. resolution], is the one computed at
    [phi = i * 2 * PI / resolution]. *)
Theorem calculatePoints_samples (p : SuperformulaParams.t) :
  (0 < SuperformulaParams.resolution p)%Z ->
  Z.of_nat (length (calculatePoints p)) = (SuperformulaParams.resolution p + 1)%Z /\
  forall i : Z,
    (0 <= i <= SuperformulaParams.resolution p)%Z ->
    nth_error (calculatePoints p) (Z.to_nat i) =
    Some (point_at p (Fin (IZR i * 2 * PI / IZR (SuperformulaParams.resolution p)))).
Proof.
  intros Hres; split.
  - rewrite calculatePoints_map, length_map, loop_indices_length; lia.
  - intros i Hi; apply calculatePoints_nth; lia.
Qed.

Lemma calculatePoints_samples_witness :
  (0 < SuperformulaParams.resolution Starfish)%Z /\
  Z.of_nat (length (calculatePoints Starfish)) = 361%Z.
Proof.
  split; [reflexivity|].
  exact (proj1 (calculatePoints_samples Starfish eq_refl)).
Defined.

(** ** Evaluation of the number operations *)

Lemma js_div_Fin (r s : R) : s <> 0 -> js_div (Fin r) (Fin s) = Fin (r / s).
Proof. intros Hs; simpl; now destruct (Req_dec_T s 0). Qed.

Lemma js_gt_Fin (r s : R) : js_gt (Fin r) (Fin s) = Rltb s r.
Proof. reflexivity. Qed.

Lemma Rltb_true (r s : R) : r < s -> Rltb r s = true.
Proof. intros H; unfold Rltb; now destruct (Rlt_dec r s). Qed.

Lemma Rltb_false (r s : R) : s <= r -> Rltb r s = false.
Proof. intros H; unfold Rltb; destruct (Rlt_dec r s); [lra|reflexivity]. Qed.

Lemma Rpower_base_1 (e : R) : Rpower 1 e = 1.
Proof. unfold Rpower; now rewrite ln_1, Rmult_0_r, exp_0. Qed.

Lemma Math_pow_pos (b e : R) :
  0 < b -> e <> 0 -> Math_pow (Fin b) (Fin e) = Fin (Rpower b e).
Proof.
  intros Hb He; simpl.
  destruct (Req_dec_T e 0); [contradiction|].
  destruct (Req_dec_T b 0); [lra|].
  now destruct (Rlt_dec 0 b).
Qed.

Lemma Math_pow_zero (e : R) : 0 < e -> Math_pow (Fin 0) (Fin e) = Fin 0.
Proof.
  intros He; simpl.
  destruct (Req_dec_T e 0); [lra|].
  destruct (Req_dec_T 0 0); [|lra].
  now destruct (Rlt_dec 0 e).
Qed.

Lemma Math_pow_one (e : R) : Math_pow (Fin 1) (Fin e) = Fin 1.
Proof.
  destruct (Req_dec_T e 0) as [->|He].
  - simpl; now destruct (Req_dec_T 0 0).
  - rewrite Math_pow_pos by lra; now rewrite Rpower_base_1.
Qed.

(** ** The radius is never negative, never infinite *)

Lemma Math_abs_radial (v : num) : radial (Math_abs v).
Proof. destruct v; simpl; auto using Rabs_pos. Qed.

Lemma pow_unit_cmp_radial (b : R) (big one small : num) :
  radial big -> radial one -> radial small ->
  radial (pow_unit_cmp b big one small).
Proof.
  intros; unfold pow_unit_cmp.
  destruct (Rlt_dec 1 (Rabs b)); [assumption|].
  now destruct (Req_dec_T (Rabs b) 1).
Qed.

Lemma Math_pow_radial (base e : num) : radial base -> radial (Math_pow base e).
Proof.
  intros Hb; destruct e as [e| | |]; simpl.
  - destruct (Req_dec_T e 0); [simpl; lra|].
    destruct base as [b| | |]; simpl in *; try easy.
    + destruct (Req_dec_T b 0).
      * destruct (Rlt_dec 0 e); simpl; auto; lra.
      * destruct (Rlt_dec 0 b); [|lra].
        simpl; left; apply exp_pos.
    + destruct (Rlt_dec 0 e); simpl; auto; lra.
  - destruct base; simpl in *; try easy.
    apply pow_unit_cmp_radial; simpl; auto; lra.
  - destruct base; simpl in *; try easy; try lra.
    apply pow_unit_cmp_radial; simpl; auto; lra.
  - exact I.
Qed.

Lemma js_add_radial (v w : num) : radial v -> radial w -> radial (js_add v w).
Proof. destruct v, w; simpl; try easy; lra. Qed.

(** With a finite, nonzero exponent, a base that is not [NaN] gives a
    power that is not [NaN]. *)
Lemma Math_pow_not_NaN (base : num) (e : R) :
  radial base -> base <> NaN -> e <> 0 -> Math_pow base (Fin e) <> NaN.
Proof.
  intros Hb Hn He; simpl.
  destruct (Req_dec_T e 0); [contradiction|].
  destruct base as [b| | |]; simpl in *; try easy.
  - destruct (Req_dec_T b 0).
    + now destruct (Rlt_dec 0 e).
    + destruct (Rlt_dec 0 b); [easy|lra].
  - now destruct (Rlt_dec 0 e).
Qed.

Lemma js_gt_abs_not_NaN (s : num) :
  js_gt (Math_abs s) (Fin 0) = true -> s <> NaN.
Proof. now destruct s. Qed.

Lemma clamp_radial (r : num) :
  radial r ->
  (if js_gt r (Fin 20) then Fin 20 else r) = NaN /\ r = NaN \/
  exists c, (if js_gt r (Fin 20) then Fin 20 else r) = Fin c /\ 0 <= c <= 20.
Proof.
  destruct r as [x| | |]; simpl; try easy.
  - intros Hx; right; unfold Rltb; destruct (Rlt_dec 20 x).
    + exists 20; split; [reflexivity|lra].
    + exists x; split; [reflexivity|lra].
  - intros _; right; exists 20; split; [reflexivity|lra].
  - intros _; now left.
Qed.

(** The radius before the clamp. *)
Lemma radius_raw_radial (p : SuperformulaParams.t) (phi : num) :
  exists r, radial r /\
    radius p phi = (if js_gt r (Fin 20) then Fin 20 else r) /\
    (forall e, SuperformulaParams.n1 p = Fin e -> e <> 0 -> r <> NaN).
Proof.
  unfold radius.
  set (t1 := Math_pow _ (SuperformulaParams.n2 p)).
  set (t2 := Math_pow _ (SuperformulaParams.n3 p)).
  assert (Hs : radial (js_add t1 t2))
    by (apply js_add_radial; apply Math_pow_radial, Math_abs_radial).
  destruct (js_gt (Math_abs (js_add t1 t2)) (Fin 0)) eqn:G.
  - eexists; split; [|split; [reflexivity|]].
    + now apply Math_pow_radial.
    + intros e -> He.
      rewrite js_div_Fin by assumption.
      apply Math_pow_not_NaN; auto using js_gt_abs_not_NaN.
      intros E; apply Rmult_integral in E; destruct E as [E|E]; [lra|].
      now apply Rinv_neq_0_compat in E.
  - exists (Fin 0); split; [simpl; lra|split; [reflexivity|easy]].
Qed.

Lemma radius_finite (p : SuperformulaParams.t) (phi : num) (e : R) :
  SuperformulaParams.n1 p = Fin e -> e <> 0 ->
  exists c, radius p phi = Fin c /\ 0 <= c <= 20.
Proof.
  intros Hn He.
  destruct (radius_raw_radial p phi) as (r & Hr & -> & Hnan).
  destruct (clamp_radial r Hr) as [[_ E]|H]; [|exact H].
  now elim (Hnan e Hn He).
Qed.

Lemma within_point_at (p : SuperformulaParams.t) (f c : R) :
  radius p (Fin f) = Fin c -> 0 <= c <= 20 -> within 3000 (point_at p (Fin f)).
Proof.
  intros Hr Hc; unfold within, point_at, scale; rewrite Hr; simpl.
  pose proof (sin2_cos2 f) as Hsc; unfold Rsqr in Hsc.
  apply Rle_trans with ((150 * c) ^ 2 * (sin f * sin f + cos f * cos f)).
  - apply Req_le; ring.
  - rewrite Hsc; nra.
Qed.

Lemma calculatePoints_within (p : SuperformulaParams.t) (e : R) :
  SuperformulaParams.n1 p = Fin e -> e <> 0 ->
  (0 < SuperformulaParams.resolution p)%Z ->
  Forall (within 3000) (calculatePoints p).
Proof.
  intros Hn He Hres.
  rewrite calculatePoints_map; apply Forall_map, Forall_forall; intros i _.
  rewrite phi_at_finite by lia.
  destruct (radius_finite p (Fin (IZR i * 2 * PI / IZR (SuperformulaParams.resolution p))) e Hn He)
    as (c & Hc & Hb).
  exact (within_point_at _ _ _ Hc Hb).
Qed.

(** ** The radius as a function of [t1 + t2] *)

Lemma radius_sum (p : SuperformulaParams.t) (phi : num) :
  radius p phi = radius_of_sum (SuperformulaParams.n1 p) (sum_terms p phi).
Proof. reflexivity. Qed.

(** With [m = 0] and [a = b = n2 = n3 = 1] the sum is 1 at every angle. *)
Lemma sum_terms_circle (p : SuperformulaParams.t) (f : R) :
  SuperformulaParams.m p = Fin 0 ->
  SuperformulaParams.a p = Fin 1 -> SuperformulaParams.b p = Fin 1 ->
  SuperformulaParams.n2 p = Fin 1 -> SuperformulaParams.n3 p = Fin 1 ->
  sum_terms p (Fin f) = Fin 1.
Proof.
  intros Hm Ha Hb H2 H3; unfold sum_terms; rewrite Hm, Ha, Hb, H2, H3.
  cbn [js_mul]; rewrite js_div_Fin by lra.
  replace (0 * f / 4) with 0 by lra.
  cbn [Math_cos Math_sin]; rewrite cos_0, sin_0, !js_div_Fin by lra.
  cbn [Math_abs].
  replace (1 / 1) with 1 by lra; replace (0 / 1) with 0 by lra.
  rewrite Rabs_R1, Rabs_R0, Math_pow_one, Math_pow_zero by lra.
  cbn [js_add]; f_equal; lra.
Qed.

Lemma radius_of_sum_one_zero : radius_of_sum (Fin 0) (Fin 1) = NaN.
Proof.
  unfold radius_of_sum; cbn [Math_abs]; rewrite Rabs_R1, js_gt_Fin.
  rewrite Rltb_true by lra.
  cbn [js_div]; destruct (Req_dec_T 0 0) as [_|N]; [|lra].
  unfold signed_inf.
  destruct (Rlt_dec 0 (-1)); [lra|]. destruct (Rlt_dec (-1) 0); [|lra].
  cbn [Math_pow]; unfold pow_unit_cmp; rewrite Rabs_R1.
  destruct (Rlt_dec 1 1); [lra|]. now destruct (Req_dec_T 1 1).
Qed.

Lemma radius_of_sum_one_one : radius_of_sum (Fin 1) (Fin 1) = Fin 1.
Proof.
  unfold radius_of_sum; cbn [Math_abs]; rewrite Rabs_R1, js_gt_Fin.
  rewrite Rltb_true, js_div_Fin, Math_pow_one, js_gt_Fin by lra.
  now rewrite Rltb_false by lra.
Qed.

(** C5, refuted as stated: with [n1 = 0], a value outside the documented
    domain, the first emitted point has [NaN] coordinates. *)
Lemma calculatePoints_zero_n1_emits_NaN :
  ~ positive (SuperformulaParams.n1 zero_n1) /\
  nth_error (calculatePoints zero_n1) 0 = Some (Point.mk NaN NaN).
Proof.
  split; [simpl; lra|].
  rewrite calculatePoints_map; cbn [nth_error map loop_indices seq zero_n1
    SuperformulaParams.resolution Z.to_nat Z.add Pos.to_nat Pos.iter_op Nat.add].
  simpl map; cbn [nth_error].
  rewrite phi_at_finite by (simpl; lia).
  unfold point_at; rewrite radius_sum, sum_terms_circle by reflexivity.
  change (SuperformulaParams.n1 zero_n1) with (Fin 0).
  rewrite radius_of_sum_one_zero; reflexivity.
Qed.

Lemma normal_tenth : / 2 ^ 1022 <= 0.1.
Proof.
  apply Rle_trans with (/ 2 ^ 4); [|simpl; lra].
  apply Rinv_le_contravar; [apply pow_lt; lra|].
  apply Rle_pow; [lra|lia].
Qed.

Lemma normal_nonzero (e : R) : / 2 ^ 1022 <= Rabs e -> e <> 0.
Proof.
  intros H ->; rewrite Rabs_R0 in H.
  assert (0 < / 2 ^ 1022) by (apply Rinv_0_lt_compat, pow_lt; lra).
  lra.
Qed.

(** C5, amended: whatever [m], [n2], [n3], [a], [b] are (in or out of
    their domains, special values included), for every finite [n1] of
    magnitude at least [2^-1022] (the smallest normal double; negative
    values included) and [resolution > 0] no emitted coordinate is
    [NaN] or infinite: all points are finite and within 3000 of the
    center. *)
Theorem calculatePoints_out_of_range_finite
    (vm vn2 vn3 va vb : num) (e : R) (res : Z) :
  / 2 ^ 1022 <= Rabs e -> (0 < res)%Z ->
  Forall (within 3000)
    (calculatePoints (SuperformulaParams.mk vm (Fin e) vn2 vn3 va vb res)).
Proof.
  intros He Hres; apply (calculatePoints_within _ e);
    [reflexivity|now apply normal_nonzero|exact Hres].
Qed.

Lemma calculatePoints_out_of_range_finite_witness :
  ~ nonnegative (SuperformulaParams.m steep) /\
  ~ positive (SuperformulaParams.n1 steep) /\
  Forall (within 3000) (calculatePoints steep).
Proof.
  split; [simpl; lra|]. split; [simpl; lra|].
  apply (calculatePoints_out_of_range_finite (Fin (-1)) (Fin 1) (Fin 1) (Fin 1) (Fin 1) (-0.1) 2);
    [|reflexivity].
  rewrite Rabs_left by lra.
  apply Rle_trans with 0.1; [exact normal_tenth|lra].
Defined.

(** C7: with [m = 0] and [n1 = n2 = n3 = a = b = 1] the radius is 1 at
    every sample index. *)
Theorem radius_circle (p : SuperformulaParams.t) (i : Z) :
  SuperformulaParams.m p = Fin 0 ->
  SuperformulaParams.n1 p = Fin 1 ->
  SuperformulaParams.n2 p = Fin 1 ->
  SuperformulaParams.n3 p = Fin 1 ->
  SuperformulaParams.a p = Fin 1 ->
  SuperformulaParams.b p = Fin 1 ->
  (0 < SuperformulaParams.resolution p)%Z ->
  radius p (phi_at p i) = Fin 1.
Proof.
  intros Hm H1 H2 H3 Ha Hb Hres.
  rewrite phi_at_finite by lia.
  rewrite radius_sum, sum_terms_circle, H1 by assumption.
  apply radius_of_sum_one_one.
Qed.

Lemma radius_circle_witness : radius circle (phi_at circle 3) = Fin 1.
Proof.
  apply (radius_circle circle 3); reflexivity.
Defined.

(** ** Closure of the curve *)

Lemma Rabs_unit (c : R) : c * c = 1 -> Rabs c = 1.
Proof.
  intros H.
  assert (E : (c - 1) * (c + 1) = 0) by lra.
  apply Rmult_integral in E; destruct E as [E|E].
  - replace c with 1 by lra; apply Rabs_R1.
  - replace c with (- (1)) by lra; rewrite Rabs_Ropp; apply Rabs_R1.
Qed.

Lemma trig_multiple_PI (j : Z) :
  sin (IZR j * PI) = 0 /\ Rabs (cos (IZR j * PI)) = 1.
Proof.
  assert (S0 : sin (IZR j * PI) = 0) by (apply sin_eq_0_1; now exists j).
  split; [exact S0|].
  pose proof (sin2_cos2 (IZR j * PI)) as H; unfold Rsqr in H; rewrite S0 in H.
  apply Rabs_unit; lra.
Qed.

Lemma trig_odd_half_PI (j : Z) :
  cos (IZR j * PI + PI / 2) = 0 /\ Rabs (sin (IZR j * PI + PI / 2)) = 1.
Proof.
  assert (C0 : cos (IZR j * PI + PI / 2) = 0) by (apply cos_eq_0_1; now exists j).
  split; [exact C0|].
  pose proof (sin2_cos2 (IZR j * PI + PI / 2)) as H; unfold Rsqr in H; rewrite C0 in H.
  apply Rabs_unit; lra.
Qed.

(** Dividing [-1] or [1] gives the same magnitude, whatever the divisor. *)
Lemma abs_div_unit (c : R) (d : num) :
  Rabs c = 1 -> Math_abs (js_div (Fin c) d) = Math_abs (js_div (Fin 1) d).
Proof.
  intros Hc.
  assert (E : c = 1 \/ c = -1).
  { unfold Rabs in Hc; destruct (Rcase_abs c); [right|left]; lra. }
  destruct E as [->| ->]; [reflexivity|].
  destruct d as [s| | |]; simpl; try reflexivity.
  destruct (Req_dec_T s 0).
  - unfold signed_inf.
    destruct (Rlt_dec 0 (-1)); [lra|]. destruct (Rlt_dec (-1) 0); [|lra].
    destruct (Rlt_dec 0 1); [reflexivity|lra].
  - simpl; f_equal.
    replace (-1 / s) with (- (1 / s)) by (field; assumption).
    apply Rabs_Ropp.
Qed.

Lemma sum_terms_Fin_m (p : SuperformulaParams.t) (rm f : R) :
  SuperformulaParams.m p = Fin rm ->
  sum_terms p (Fin f) =
  js_add
    (Math_pow (Math_abs (js_div (Fin (cos (rm * f / 4))) (SuperformulaParams.a p)))
              (SuperformulaParams.n2 p))
    (Math_pow (Math_abs (js_div (Fin (sin (rm * f / 4))) (SuperformulaParams.b p)))
              (SuperformulaParams.n3 p)).
Proof.
  intros Hm; unfold sum_terms; rewrite Hm; cbn [js_mul].
  now rewrite js_div_Fin by lra.
Qed.

Lemma sum_terms_closed_even (p : SuperformulaParams.t) (j : Z) :
  SuperformulaParams.m p = Fin (IZR (2 * j)) ->
  sum_terms p (Fin (2 * PI)) = sum_terms p (Fin 0).
Proof.
  intros Hm; rewrite !(sum_terms_Fin_m p _ _ Hm).
  replace (IZR (2 * j) * (2 * PI) / 4) with (IZR j * PI)
    by (rewrite mult_IZR; field).
  replace (IZR (2 * j) * 0 / 4) with 0 by lra.
  destruct (trig_multiple_PI j) as [-> Hc].
  rewrite (abs_div_unit _ _ Hc), cos_0, sin_0; reflexivity.
Qed.

Lemma sum_terms_closed_odd (p : SuperformulaParams.t) (j : Z) :
  SuperformulaParams.m p = Fin (IZR (2 * j + 1)) ->
  SuperformulaParams.a p = Fin 1 -> SuperformulaParams.b p = Fin 1 ->
  positive (SuperformulaParams.n2 p) -> positive (SuperformulaParams.n3 p) ->
  sum_terms p (Fin (2 * PI)) = sum_terms p (Fin 0).
Proof.
  intros Hm Ha Hb H2 H3; rewrite !(sum_terms_Fin_m p _ _ Hm), Ha, Hb.
  destruct (SuperformulaParams.n2 p) as [r2| | |]; simpl in H2; try easy.
  destruct (SuperformulaParams.n3 p) as [r3| | |]; simpl in H3; try easy.
  replace (IZR (2 * j + 1) * (2 * PI) / 4) with (IZR j * PI + PI / 2)
    by (rewrite plus_IZR, mult_IZR; field).
  replace (IZR (2 * j + 1) * 0 / 4) with 0 by lra.
  destruct (trig_odd_half_PI j) as [-> Hs].
  rewrite (abs_div_unit _ _ Hs), cos_0, sin_0, !js_div_Fin by lra.
  cbn [Math_abs].
  replace (1 / 1) with 1 by lra; replace (0 / 1) with 0 by lra.
  rewrite Rabs_R1, Rabs_R0, !Math_pow_one, !Math_pow_zero by lra.
  cbn [js_add]; f_equal; lra.
Qed.

Lemma sum_terms_closed_odd_equal (p : SuperformulaParams.t) (j : Z) (c n : R) :
  SuperformulaParams.m p = Fin (IZR (2 * j + 1)) ->
  SuperformulaParams.a p = Fin c -> SuperformulaParams.b p = Fin c ->
  SuperformulaParams.n2 p = Fin n -> SuperformulaParams.n3 p = Fin n ->
  0 < c -> 0 < n ->
  sum_terms p (Fin (2 * PI)) = sum_terms p (Fin 0).
Proof.
  intros Hm Ha Hb H2 H3 Hc Hn; rewrite !(sum_terms_Fin_m p _ _ Hm), Ha, Hb, H2, H3.
  replace (IZR (2 * j + 1) * (2 * PI) / 4) with (IZR j * PI + PI / 2)
    by (rewrite plus_IZR, mult_IZR; field).
  replace (IZR (2 * j + 1) * 0 / 4) with 0 by lra.
  destruct (trig_odd_half_PI j) as [-> Hs].
  rewrite (abs_div_unit _ _ Hs), cos_0, sin_0, !js_div_Fin by lra.
  cbn [Math_abs].
  replace (0 / c) with 0 by (field; lra).
  rewrite Rabs_R0, Math_pow_zero by lra.
  assert (Hp : 0 < Rabs (1 / c)).
  { apply Rabs_pos_lt; unfold Rdiv; rewrite Rmult_1_l.
    apply Rinv_neq_0_compat; lra. }
  rewrite Math_pow_pos by lra.
  cbn [js_add]; f_equal; lra.
Qed.

Lemma point_at_closed (p : SuperformulaParams.t) :
  sum_terms p (Fin (2 * PI)) = sum_terms p (Fin 0) ->
  point_at p (Fin (2 * PI)) = point_at p (Fin 0).
Proof.
  intros H; unfold point_at; rewrite !radius_sum, H.
  cbn [Math_cos Math_sin]; now rewrite cos_2PI, sin_2PI, cos_0, sin_0.
Qed.

(** C6, refuted as stated: with [m = 1], [a = 2], [b = 1] and all
    exponents 1 the first point is (550, 250) and the last (400, 250). *)
Lemma calculatePoints_lopsided_not_closed :
  (0 < SuperformulaParams.resolution lopsided)%Z /\
  nth_error (calculatePoints lopsided) 0 = Some (Point.mk (Fin 550) (Fin 250)) /\
  nth_error (calculatePoints lopsided)
    (Z.to_nat (SuperformulaParams.resolution lopsided)) =
  Some (Point.mk (Fin 400) (Fin 250)) /\
  nth_error (calculatePoints lopsided) 0 <>
  nth_error (calculatePoints lopsided)
    (Z.to_nat (SuperformulaParams.resolution lopsided)).
Proof.
  assert (R0 : radius lopsided (Fin 0) = Fin 2).
  { rewrite radius_sum, (sum_terms_Fin_m lopsided 1 0 eq_refl).
    replace (1 * 0 / 4) with 0 by lra.
    cbn [lopsided SuperformulaParams.a SuperformulaParams.b SuperformulaParams.n1
         SuperformulaParams.n2 SuperformulaParams.n3].
    rewrite cos_0, sin_0, !js_div_Fin by lra; cbn [Math_abs].
    replace (0 / 1) with 0 by lra.
    rewrite Rabs_R0, Math_pow_zero, (Rabs_pos_eq (1 / 2)) by lra.
    rewrite Math_pow_pos, Rpower_1 by lra.
    unfold radius_of_sum; cbn [js_add Math_abs].
    rewrite js_gt_Fin, Rltb_true, js_div_Fin by (try rewrite Rabs_pos_eq; lra).
    rewrite Math_pow_pos by lra.
    replace (-1 / 1) with (- (1)) by lra.
    rewrite Rpower_Ropp, Rpower_1 by lra.
    rewrite js_gt_Fin, Rltb_false; [f_equal; field|].
    replace (/ (1 / 2 + 0)) with 2 by field; lra. }
  assert (R1 : radius lopsided (Fin (2 * PI)) = Fin 1).
  { rewrite radius_sum, (sum_terms_Fin_m lopsided 1 (2 * PI) eq_refl).
    replace (1 * (2 * PI) / 4) with (PI / 2) by field.
    cbn [lopsided SuperformulaParams.a SuperformulaParams.b SuperformulaParams.n1
         SuperformulaParams.n2 SuperformulaParams.n3].
    rewrite cos_PI2, sin_PI2, !js_div_Fin by lra; cbn [Math_abs].
    replace (0 / 2) with 0 by lra; replace (1 / 1) with 1 by lra.
    rewrite Rabs_R0, Rabs_R1, Math_pow_zero, Math_pow_one by lra.
    cbn [js_add]; replace (0 + 1) with 1 by lra.
    apply radius_of_sum_one_one. }
  assert (P0 : nth_error (calculatePoints lopsided) 0 =
               Some (Point.mk (Fin 550) (Fin 250))).
  { rewrite calculatePoints_first by reflexivity.
    unfold point_at, scale; rewrite R0; cbn [Math_cos Math_sin js_mul js_add].
    rewrite cos_0, sin_0; do 2 f_equal; f_equal; lra. }
  assert (P1 : nth_error (calculatePoints lopsided)
                 (Z.to_nat (SuperformulaParams.resolution lopsided)) =
               Some (Point.mk (Fin 400) (Fin 250))).
  { rewrite calculatePoints_last by reflexivity.
    unfold point_at, scale; rewrite R1; cbn [Math_cos Math_sin js_mul js_add].
    rewrite cos_2PI, sin_2PI; do 2 f_equal; f_equal; lra. }
  split; [reflexivity|]. split; [exact P0|]. split; [exact P1|].
  rewrite P0, P1; intros E; injection E as E; lra.
Qed.

(** C6, amended: for an integer [m] from 0 to 20, [n1 >= 0.1],
    [n2, n3 >= 1], [resolution > 0] and equal scale denominators
    [a = b = c], with [c = 1] or with [c > 0] and [n2 = n3], the points
    at index 0 and at index [resolution] are the same point. *)
Theorem calculatePoints_closed
    (p : SuperformulaParams.t) (k : Z) (e r2 r3 c : R) :
  SuperformulaParams.m p = Fin (IZR k) -> (0 <= k <= 20)%Z ->
  SuperformulaParams.n1 p = Fin e -> 0.1 <= e ->
  SuperformulaParams.n2 p = Fin r2 -> 1 <= r2 ->
  SuperformulaParams.n3 p = Fin r3 -> 1 <= r3 ->
  SuperformulaParams.a p = Fin c -> SuperformulaParams.b p = Fin c ->
  c = 1 \/ (0 < c /\ r2 = r3) ->
  (0 < SuperformulaParams.resolution p)%Z ->
  exists pt : Point.t,
    nth_error (calculatePoints p) 0 = Some pt /\
    nth_error (calculatePoints p) (Z.to_nat (SuperformulaParams.resolution p)) = Some pt.
Proof.
  intros Hm _ _ _ H2 Hr2 H3 Hr3 Ha Hb Hcase Hres.
  assert (Hsum : sum_terms p (Fin (2 * PI)) = sum_terms p (Fin 0)).
  { destruct (Z.Even_or_Odd k) as [[j ->]|[j ->]].
    - now apply (sum_terms_closed_even p j).
    - destruct Hcase as [->|[Hc ->]].
      + apply (sum_terms_closed_odd p j); try assumption.
        * rewrite H2; simpl; lra.
        * rewrite H3; simpl; lra.
      + apply (sum_terms_closed_odd_equal p j c r3); try assumption; lra. }
  exists (point_at p (Fin 0)); split.
  - now apply calculatePoints_first.
  - rewrite calculatePoints_last by assumption.
    now rewrite (point_at_closed p Hsum).
Qed.

Lemma calculatePoints_closed_witness :
  exists pt : Point.t,
    nth_error (calculatePoints Starfish) 0 = Some pt /\
    nth_error (calculatePoints Starfish) 360 = Some pt.
Proof.
  apply (calculatePoints_closed Starfish 5 0.5 1.7 1.7 1).
  - reflexivity.
  - lia.
  - reflexivity.
  - lra.
  - reflexivity.
  - lra.
  - reflexivity.
  - lra.
  - reflexivity.
  - reflexivity.
  - left; reflexivity.
  - reflexivity.
Defined.

(** ** Randomize *)

Lemma Zfloor_between (lo hi : Z) (r : R) :
  IZR lo <= r < IZR hi + 1 -> (lo <= Zfloor r <= hi)%Z.
Proof.
  intros [Hlo Hhi]; split.
  - now apply Zfloor_lub.
  - pose proof (Zfloor_bound r) as [Hf _].
    assert (H : (Zfloor r < hi + 1)%Z) by (apply lt_IZR; rewrite plus_IZR; lra).
    lia.
Qed.

(** Rounding to one decimal keeps a value between two decimals between
    them. *)
Lemma toFixed1_between (lo hi : Z) (r : R) :
  (0 <= lo)%Z -> (hi <= 1000)%Z ->
  IZR lo / 10 <= r <= IZR hi / 10 ->
  exists q, toFixed1 (Fin r) = Fin q /\ IZR lo / 10 <= q <= IZR hi / 10.
Proof.
  intros Hlo Hhi [Hl Hh].
  apply IZR_le in Hlo, Hhi.
  assert (H0 : 0 <= r) by lra.
  unfold toFixed1.
  destruct (Rle_dec (10 ^ 21) (Rabs r)) as [Big|_].
  { rewrite Rabs_pos_eq in Big by assumption; simpl in Big; lra. }
  destruct (Rlt_dec r 0) as [Neg|_]; [lra|].
  eexists; split; [reflexivity|].
  destruct (Zfloor_between lo hi (r * 10 + / 2)) as [F1 F2]; [lra|].
  apply IZR_le in F1, F2; lra.
Qed.

(** C8: whatever the four draws in [0, 1) are, [handleRandomize] emits
    an integer [m] in [2, 17], [n1] in [0.1, 10.1], [n2] and [n3] in
    [0.1, 5.1], [a = b = 1] and [resolution = 360]. *)
Theorem handleRandomize_in_bounds (u1 u2 u3 u4 : R) :
  0 <= u1 < 1 -> 0 <= u2 < 1 -> 0 <= u3 < 1 -> 0 <= u4 < 1 ->
  let p := handleRandomize (Fin u1) (Fin u2) (Fin u3) (Fin u4) in
  (exists k : Z, SuperformulaParams.m p = Fin (IZR k) /\ (2 <= k <= 17)%Z) /\
  (exists r, SuperformulaParams.n1 p = Fin r /\ 0.1 <= r <= 10.1) /\
  (exists r, SuperformulaParams.n2 p = Fin r /\ 0.1 <= r <= 5.1) /\
  (exists r, SuperformulaParams.n3 p = Fin r /\ 0.1 <= r <= 5.1) /\
  SuperformulaParams.a p = Fin 1 /\
  SuperformulaParams.b p = Fin 1 /\
  SuperformulaParams.resolution p = 360%Z.
Proof.
  intros H1 H2 H3 H4 p; subst p; unfold handleRandomize;
    cbn [SuperformulaParams.m SuperformulaParams.n1 SuperformulaParams.n2
         SuperformulaParams.n3 SuperformulaParams.a SuperformulaParams.b
         SuperformulaParams.resolution js_mul js_add Math_floor].
  repeat split.
  - exists (Zfloor (u1 * 16) + 2)%Z; split; [now rewrite plus_IZR|].
    destruct (Zfloor_between 0 15 (u1 * 16)); [simpl; lra|lia].
  - destruct (toFixed1_between 1 101 (u2 * 10 + 0.1)) as (q & -> & Hq);
      try lia; [lra|exists q; split; [reflexivity|lra]].
  - destruct (toFixed1_between 1 51 (u3 * 5 + 0.1)) as (q & -> & Hq);
      try lia; [lra|exists q; split; [reflexivity|lra]].
  - destruct (toFixed1_between 1 51 (u4 * 5 + 0.1)) as (q & -> & Hq);
      try lia; [lra|exists q; split; [reflexivity|lra]].
Qed.

Lemma handleRandomize_in_bounds_witness :
  SuperformulaParams.resolution (handleRandomize (Fin 0) (Fin 0.5) (Fin 0.25) (Fin 0.75))
  = 360%Z.
Proof.
  refine (proj2 (proj2 (proj2 (proj2 (proj2 (proj2
    (handleRandomize_in_bounds 0 0.5 0.25 0.75 _ _ _ _))))))); lra.
Defined.

(** ** [drawTree] and the list of its segments *)

(** The context after the trunk of a call has been stroked. *)
Lemma drawTree_trunk (v : View.t) (sx sy len angle : R) (cd : Z) (c : Ctx.t) :
  Ctx.stroke
    (Ctx.set_lineWidth (branch_width v cd)
      (Ctx.set_strokeStyle cd
        (Ctx.lineTo 0 (- drawnLen v len)
          (Ctx.moveTo 0 0
            (Ctx.rotate ((angle + windAngle v cd) * PI / 180)
              (Ctx.translate sx sy (Ctx.save (Ctx.beginPath c)))))))) =
  let M' := branch_matrix v (Ctx.ctm c) sx sy angle cd in
  Ctx.mk M'
    ((Ctx.ctm c, Ctx.strokeStyle c, Ctx.lineWidth c) :: Ctx.saved c)
    [(Matrix.apply M' (0, 0), Matrix.apply M' (0, - drawnLen v len))]
    (Some (Matrix.apply M' (0, - drawnLen v len)))
    cd (branch_width v cd)
    (Ctx.strokes c ++ [branch_segment v (Ctx.ctm c) sx sy len angle cd]).
Proof. reflexivity. Qed.

Lemma drawn_trans (c1 c2 c3 : Ctx.t) (s t : list Segment.t) :
  drawn c1 c2 s -> drawn c2 c3 t -> drawn c1 c3 (s ++ t).
Proof.
  intros (M1 & S1 & O1) (M2 & S2 & O2); repeat split; try congruence.
  now rewrite O2, O1, app_assoc.
Qed.

Lemma restore_saved (c : Ctx.t) (M : Matrix.t) (s : Z) (w : R)
    (rest : list (Matrix.t * Z * R)) :
  Ctx.saved c = (M, s, w) :: rest ->
  Ctx.restore c = Ctx.mk M rest (Ctx.path c) (Ctx.pen c) s w (Ctx.strokes c).
Proof. intros H; unfold Ctx.restore; now rewrite H. Qed.

(** With more fuel than levels the call returns, and has drawn the
    segments of its tree. *)
Lemma drawTree_fuel_drawn (fuel : nat) :
  forall (v : View.t) (sx sy len angle : R) (depth cd : Z) (c : Ctx.t),
    (Z.to_nat depth < fuel)%nat ->
    exists c',
      drawTree_fuel fuel v sx sy len angle depth cd c = Some c' /\
      drawn c c' (tree_segments (Z.to_nat depth) v (Ctx.ctm c) sx sy len angle cd).
Proof.
  induction fuel as [|fuel IH]; intros v sx sy len angle depth cd c Hfuel; [lia|].
  cbn [drawTree_fuel]; cbv zeta.
  fold (branch_width v cd); rewrite drawTree_trunk; cbv zeta.
  set (M' := branch_matrix v (Ctx.ctm c) sx sy angle cd).
  set (seg := branch_segment v (Ctx.ctm c) sx sy len angle cd).
  set (c1 := Ctx.mk M' _ _ _ _ _ _).
  assert (D1 : Ctx.ctm c1 = M' /\
               Ctx.saved c1 = (Ctx.ctm c, Ctx.strokeStyle c, Ctx.lineWidth c) :: Ctx.saved c /\
               Ctx.strokes c1 = Ctx.strokes c ++ [seg]) by (repeat split).
  destruct D1 as (HM & HS & HO).
  destruct (Z.ltb_spec depth 1) as [Hd|Hd].
  - replace (Z.to_nat depth) with 0%nat by lia.
    eexists; split; [reflexivity|].
    rewrite (restore_saved _ _ _ _ _ HS); repeat split; exact HO.
  - replace (Z.to_nat depth) with (S (Z.to_nat (depth - 1))) in * by lia.
    cbn [tree_segments]; cbv zeta; fold M'; fold seg.
    set (n := Z.to_nat (depth - 1)) in *.
    set (len' := len * FractalParams.lengthMultiplier (View.params v)).
    destruct (IH v 0 (- drawnLen v len) len'
                (FractalParams.angle (View.params v)) (depth - 1)%Z (cd + 1)%Z c1)
      as (c2 & -> & D2); [lia|].
    cbn [and_then].
    destruct (IH v 0 (- drawnLen v len) len'
                (- FractalParams.angle (View.params v)) (depth - 1)%Z (cd + 1)%Z c2)
      as (c3 & -> & D3); [lia|].
    pose proof (drawn_trans _ _ _ _ _ D2 D3) as D23.
    rewrite (proj1 D2), HM in D23; fold n in D23.
    cbn [and_then].
    assert (exists c4,
      (if (2 <? FractalParams.branchCount (View.params v))%Z
       then drawTree_fuel fuel v 0 (- drawnLen v len) len' 0 (depth - 1) (cd + 1) c3
       else Some c3) = Some c4 /\
      drawn c3 c4
        (if (2 <? FractalParams.branchCount (View.params v))%Z
         then tree_segments n v M' 0 (- drawnLen v len) len' 0 (cd + 1)
         else [])) as (c4 & -> & D4).
    { destruct (2 <? FractalParams.branchCount (View.params v))%Z.
      - destruct (IH v 0 (- drawnLen v len) len' 0 (depth - 1)%Z (cd + 1)%Z c3)
          as (c4 & E4 & D4); [lia|].
        exists c4; split; [exact E4|].
        now rewrite (proj1 D23), HM in D4.
      - exists c3; split; [reflexivity|].
        repeat split; now rewrite app_nil_r. }
    pose proof (drawn_trans _ _ _ _ _ D23 D4) as (_ & S4 & O4).
    cbn [and_then]; eexists; split; [reflexivity|].
    rewrite HS in S4; rewrite (restore_saved _ _ _ _ _ S4).
    repeat split; cbn [Ctx.strokes].
    now rewrite O4, HO, <- !app_assoc.
Qed.

(** [drawTree] always returns. *)
Lemma drawTree_drawn (v : View.t) (sx sy len angle : R) (depth cd : Z) (c : Ctx.t) :
  exists c',
    drawTree v sx sy len angle depth cd c = Some c' /\
    drawn c c' (tree_segments (Z.to_nat depth) v (Ctx.ctm c) sx sy len angle cd).
Proof. apply drawTree_fuel_drawn; lia. Qed.

(** ** Counting the segments *)

Lemma tree_segments_length_binary (v : View.t) (n : nat) :
  (FractalParams.branchCount (View.params v) <= 2)%Z ->
  forall (M : Matrix.t) (sx sy len angle : R) (cd : Z),
    Z.of_nat (length (tree_segments n v M sx sy len angle cd)) =
    (2 ^ (Z.of_nat n + 1) - 1)%Z.
Proof.
  intros Hb; induction n as [|n IH]; intros M sx sy len angle cd.
  - reflexivity.
  - cbn [tree_segments]; cbv zeta.
    destruct (Z.ltb_spec 2 (FractalParams.branchCount (View.params v))); [lia|].
    assert (P : (2 ^ (Z.of_nat (S n) + 1) = 2 * 2 ^ (Z.of_nat n + 1))%Z).
    { replace (Z.of_nat (S n) + 1)%Z with (Z.succ (Z.of_nat n + 1)) by lia.
      apply Z.pow_succ_r; lia. }
    rewrite P, app_nil_r, length_cons, length_app, Nat2Z.inj_succ, Nat2Z.inj_add, !IH.
    lia.
Qed.

Lemma tree_segments_length_ternary (v : View.t) (n : nat) :
  (2 < FractalParams.branchCount (View.params v))%Z ->
  forall (M : Matrix.t) (sx sy len angle : R) (cd : Z),
    (2 * Z.of_nat (length (tree_segments n v M sx sy len angle cd)) + 1 =
     3 ^ (Z.of_nat n + 1))%Z.
Proof.
  intros Hb; induction n as [|n IH]; intros M sx sy len angle cd.
  - reflexivity.
  - cbn [tree_segments]; cbv zeta.
    destruct (Z.ltb_spec 2 (FractalParams.branchCount (View.params v))); [|lia].
    assert (P : (3 ^ (Z.of_nat (S n) + 1) = 3 * 3 ^ (Z.of_nat n + 1))%Z).
    { replace (Z.of_nat (S n) + 1)%Z with (Z.succ (Z.of_nat n + 1)) by lia.
      apply Z.pow_succ_r; lia. }
    rewrite P, length_cons, !length_app, Nat2Z.inj_succ, !Nat2Z.inj_add.
    pose proof (IH (branch_matrix v M sx sy angle cd) 0 (- drawnLen v len)
                  (len * FractalParams.lengthMultiplier (View.params v))
                  (FractalParams.angle (View.params v)) (cd + 1)%Z) as H1.
    pose proof (IH (branch_matrix v M sx sy angle cd) 0 (- drawnLen v len)
                  (len * FractalParams.lengthMultiplier (View.params v))
                  (- FractalParams.angle (View.params v)) (cd + 1)%Z) as H2.
    pose proof (IH (branch_matrix v M sx sy angle cd) 0 (- drawnLen v len)
                  (len * FractalParams.lengthMultiplier (View.params v))
                  0 (cd + 1)%Z) as H3.
    lia.
Qed.

(** C3: a call of [drawTree] with remaining depth [d >= 0] returns and
    strokes [2^(d+1) - 1] segments when [branchCount = 2],
    [(3^(d+1) - 1) / 2] segments when [branchCount = 3], and one
    segment when [d = 0]. *)
Theorem drawTree_segment_count (v : View.t) (sx sy len angle : R)
    (d cd : Z) (c : Ctx.t) :
  (0 <= d)%Z ->
  exists (c' : Ctx.t) (segs : list Segment.t),
    drawTree v sx sy len angle d cd c = Some c' /\
    Ctx.strokes c' = Ctx.strokes c ++ segs /\
    (FractalParams.branchCount (View.params v) = 2%Z ->
     Z.of_nat (length segs) = (2 ^ (d + 1) - 1)%Z) /\
    (FractalParams.branchCount (View.params v) = 3%Z ->
     Z.of_nat (length segs) = ((3 ^ (d + 1) - 1) / 2)%Z) /\
    (d = 0%Z -> length segs = 1%nat).
Proof.
  intros Hd.
  destruct (drawTree_drawn v sx sy len angle d cd c) as (c' & E & _ & _ & O).
  exists c'; eexists; split; [exact E|]. split; [exact O|].
  split; [|split].
  - intros Hb.
    rewrite tree_segments_length_binary by lia.
    now rewrite Z2Nat.id.
  - intros Hb.
    pose proof (tree_segments_length_ternary v (Z.to_nat d) ltac:(lia)
                  (Ctx.ctm c) sx sy len angle cd) as H.
    rewrite Z2Nat.id in H by assumption.
    rewrite <- H.
    replace (2 * Z.of_nat (length (tree_segments (Z.to_nat d) v (Ctx.ctm c) sx sy len angle cd)) + 1 - 1)%Z
      with (Z.of_nat (length (tree_segments (Z.to_nat d) v (Ctx.ctm c) sx sy len angle cd)) * 2)%Z
      by lia.
    now rewrite Z.div_mul.
  - intros ->; reflexivity.
Qed.

Lemma drawTree_segment_count_witness :
  exists (c' : Ctx.t) (segs : list Segment.t),
    drawTree View.initial 0 0 100 0 10 0 Ctx.fresh = Some c' /\
    Ctx.strokes c' = segs /\ Z.of_nat (length segs) = 2047%Z.
Proof.
  destruct (drawTree_segment_count View.initial 0 0 100 0 10 0 Ctx.fresh)
    as (c' & segs & E & O & H2 & _); [lia|].
  exists c', segs; split; [exact E|]. split; [exact O|].
  exact (H2 eq_refl).
Defined.

(** ** Connectivity *)

Lemma branch_segment_start (v : View.t) (M : Matrix.t)
    (sx sy len angle : R) (cd : Z) :
  Segment.start (branch_segment v M sx sy len angle cd) = Matrix.apply M (sx, sy).
Proof.
  unfold branch_segment, branch_matrix, Matrix.apply; cbn.
  f_equal; ring.
Qed.

Lemma Rooted_intro (o : point) (l : Z) (s : Segment.t)
    (kids : list (list Segment.t)) :
  Segment.start s = o -> Segment.style s = l ->
  Forall (Rooted (Segment.stop s) (l + 1)) kids ->
  Rooted o l (s :: concat kids).
Proof. intros <- <- H; now constructor. Qed.

Lemma app_concat_two {A : Type} (k1 k2 : list A) :
  k1 ++ k2 = concat [k1; k2].
Proof. cbn [concat]; now rewrite app_nil_r. Qed.

Lemma app_concat_three {A : Type} (k1 k2 k3 : list A) :
  k1 ++ k2 ++ k3 = concat [k1; k2; k3].
Proof. cbn [concat]; now rewrite app_nil_r. Qed.

Lemma tree_segments_rooted (v : View.t) (n : nat) :
  forall (M : Matrix.t) (sx sy len angle : R) (cd : Z),
    Rooted (Matrix.apply M (sx, sy)) cd (tree_segments n v M sx sy len angle cd).
Proof.
  induction n as [|n IH]; intros M sx sy len angle cd.
  - apply (Rooted_intro _ _ _ []);
      [apply branch_segment_start|reflexivity|constructor].
  - cbn [tree_segments]; cbv zeta.
    set (M' := branch_matrix v M sx sy angle cd).
    set (len' := len * FractalParams.lengthMultiplier (View.params v)).
    pose proof (fun a' => IH M' 0 (- drawnLen v len) len' a' (cd + 1)%Z) as Kid.
    destruct (2 <? FractalParams.branchCount (View.params v))%Z.
    + rewrite app_concat_three.
      apply Rooted_intro; [apply branch_segment_start|reflexivity|].
      repeat constructor; apply Kid.
    + rewrite app_nil_r, app_concat_two.
      apply Rooted_intro; [apply branch_segment_start|reflexivity|].
      repeat constructor; apply Kid.
Qed.

(** C10: whatever the growth, the time and the wind flag are, the
    segments of a call form a connected tree: the trunk starts at the
    origin of the call and stops at its drawn tip, and every child
    segment starts exactly where its parent segment stops. *)
Theorem drawTree_connected (v : View.t) (sx sy len angle : R)
    (d cd : Z) (c : Ctx.t) :
  exists (c' : Ctx.t) (trunk : Segment.t) (rest : list Segment.t),
    drawTree v sx sy len angle d cd c = Some c' /\
    Ctx.strokes c' = Ctx.strokes c ++ trunk :: rest /\
    Segment.stop trunk =
      Matrix.apply (branch_matrix v (Ctx.ctm c) sx sy angle cd)
                   (0, - drawnLen v len) /\
    Rooted (Matrix.apply (Ctx.ctm c) (sx, sy)) cd (trunk :: rest).
Proof.
  destruct (drawTree_drawn v sx sy len angle d cd c) as (c' & E & _ & _ & O).
  pose proof (tree_segments_rooted v (Z.to_nat d) (Ctx.ctm c) sx sy len angle cd) as H.
  exists c'.
  destruct (Z.to_nat d); cbn [tree_segments] in *; cbv zeta in *;
    (do 2 eexists; repeat split; [exact E|exact O|reflexivity|exact H]).
Qed.

(** In drawing order the second segment is the first child of the
    trunk: it starts where the trunk stops. *)
Lemma Rooted_second (o : point) (l : Z) (s1 s2 : Segment.t)
    (rest : list Segment.t) :
  Rooted o l (s1 :: s2 :: rest) -> Segment.start s2 = Segment.stop s1.
Proof.
  intros H; inversion H as [s kids Hk Ho Hl Hs]; subst.
  destruct Hk as [|kid kids Hkid _]; cbn [concat] in *; [discriminate|].
  inversion Hkid as [s' kids' _ Ho' Hl' Hs']; subst.
  cbn [app] in *; congruence.
Qed.

(** ** Drawn lengths *)

Lemma branch_matrix_similarity (k : R) (v : View.t) (M : Matrix.t)
    (sx sy angle : R) (cd : Z) :
  similarity k M -> similarity k (branch_matrix v M sx sy angle cd).
Proof.
  intros (H1 & H2 & H3); unfold similarity, branch_matrix.
  set (t := (angle + windAngle v cd) * PI / 180).
  pose proof (sin2_cos2 t) as SC; unfold Rsqr in SC.
  cbn [Matrix.rotate Matrix.translate Matrix.a Matrix.b Matrix.c Matrix.d].
  set (a := Matrix.a M) in *; set (b := Matrix.b M) in *.
  set (c := Matrix.c M) in *; set (d := Matrix.d M) in *.
  repeat split.
  - transitivity ((a * a + b * b) * (cos t * cos t) + (c * c + d * d) * (sin t * sin t)
                  + 2 * (a * c + b * d) * (sin t * cos t)); [ring|].
    rewrite H1, H2, H3.
    transitivity (k * k * (sin t * sin t + cos t * cos t)); [ring|].
    rewrite SC; ring.
  - transitivity ((a * a + b * b) * (sin t * sin t) + (c * c + d * d) * (cos t * cos t)
                  - 2 * (a * c + b * d) * (sin t * cos t)); [ring|].
    rewrite H1, H2, H3.
    transitivity (k * k * (sin t * sin t + cos t * cos t)); [ring|].
    rewrite SC; ring.
  - transitivity (((c * c + d * d) - (a * a + b * b)) * (sin t * cos t)
                  + (a * c + b * d) * (cos t * cos t - sin t * sin t)); [ring|].
    rewrite H1, H2, H3; ring.
Qed.

Lemma branch_segment_length2 (k : R) (v : View.t) (M : Matrix.t)
    (sx sy len angle : R) (cd : Z) :
  similarity k M ->
  segment_length2 (branch_segment v M sx sy len angle cd) =
  (k * (len * growth_factor v)) ^ 2.
Proof.
  intros H; apply (branch_matrix_similarity k v M sx sy angle cd) in H.
  destruct H as (_ & H2 & _).
  unfold segment_length2, branch_segment, Matrix.apply; cbn [Segment.start Segment.stop fst snd].
  fold (growth_factor v); unfold drawnLen; fold (growth_factor v).
  set (M' := branch_matrix v M sx sy angle cd) in *.
  transitivity ((Matrix.c M' * Matrix.c M' + Matrix.d M' * Matrix.d M')
                * (len * growth_factor v) ^ 2); [ring|].
  rewrite H2; ring.
Qed.

(** Every segment of a tree has a depth index at or above that of the
    trunk, and the squared length that its remaining length and the
    growth give it. *)
Lemma tree_segments_length2 (k : R) (v : View.t) (n : nat) :
  forall (M : Matrix.t) (sx sy len angle : R) (cd : Z),
    similarity k M ->
    Forall (fun s =>
              (cd <= Segment.style s)%Z /\
              segment_length2 s =
              (k * (remaining_length v len cd s * growth_factor v)) ^ 2)
           (tree_segments n v M sx sy len angle cd).
Proof.
  induction n as [|n IH]; intros M sx sy len angle cd HM.
  - repeat constructor; cbn [branch_segment Segment.style]; [lia|].
    rewrite (branch_segment_length2 k) by assumption.
    unfold remaining_length; cbn [branch_segment Segment.style].
    replace (Z.to_nat (cd - cd)) with 0%nat by lia; f_equal; cbn [pow]; ring.
  - cbn [tree_segments]; cbv zeta.
    set (M' := branch_matrix v M sx sy angle cd).
    set (len' := len * FractalParams.lengthMultiplier (View.params v)).
    assert (Kid : forall a',
      Forall (fun s =>
                (cd <= Segment.style s)%Z /\
                segment_length2 s =
                (k * (remaining_length v len cd s * growth_factor v)) ^ 2)
             (tree_segments n v M' 0 (- drawnLen v len) len' a' (cd + 1))).
    { intros a'.
      eapply Forall_impl;
        [|apply (IH M' 0 (- drawnLen v len) len' a' (cd + 1)%Z);
          now apply branch_matrix_similarity].
      intros s [Hl Hs]; split; [lia|].
      rewrite Hs; unfold remaining_length, len'.
      replace (Z.to_nat (Segment.style s - cd))
        with (S (Z.to_nat (Segment.style s - (cd + 1)))) by lia.
      cbn [pow]; f_equal; ring. }
    constructor.
    + cbn [branch_segment Segment.style]; split; [lia|].
      rewrite (branch_segment_length2 k) by assumption.
      unfold remaining_length; cbn [branch_segment Segment.style].
      replace (Z.to_nat (cd - cd)) with 0%nat by lia; f_equal; cbn [pow]; ring.
    + rewrite !Forall_app; repeat split; try apply Kid.
      destruct (2 <? FractalParams.branchCount (View.params v))%Z;
        [apply Kid|constructor].
Qed.

Lemma segment_length_of_square (s : Segment.t) (r : R) :
  segment_length2 s = r ^ 2 -> segment_length s = Rabs r.
Proof.
  intros H; unfold segment_length; rewrite H.
  replace (r ^ 2) with (Rsqr r) by (unfold Rsqr; ring).
  apply sqrt_Rsqr_abs.
Qed.

Lemma segment_degenerate (s : Segment.t) :
  segment_length2 s = 0 -> Segment.stop s = Segment.start s.
Proof.
  unfold segment_length2.
  destruct (Segment.stop s) as [x1 y1], (Segment.start s) as [x0 y0];
    cbn [fst snd]; intros H.
  destruct (Rplus_sqr_eq_0 (x1 - x0) (y1 - y0)) as [Hx Hy].
  { unfold Rsqr; lra. }
  f_equal; lra.
Qed.

Lemma growth_factor_zero (v : View.t) : View.growth v = 0 -> growth_factor v = 0.
Proof.
  intros H; unfold growth_factor; rewrite H, Rmult_0_l.
  apply Rmin_right; lra.
Qed.

Lemma growth_factor_saturated (v : View.t) :
  (1 <= FractalParams.depth (View.params v))%Z ->
  2 / IZR (FractalParams.depth (View.params v)) <= View.growth v ->
  growth_factor v = 1.
Proof.
  intros HD Hg; unfold growth_factor.
  apply IZR_le in HD.
  set (D := IZR (FractalParams.depth (View.params v))) in *.
  apply Rmin_left.
  apply Rmult_le_compat_r with (r := D / 2) in Hg; [|lra].
  replace (2 / D * (D / 2)) with 1 in Hg by (field; lra).
  exact Hg.
Qed.

(** C4: in a context whose transformation scales by [k], every segment
    of a call of [drawTree] has length
    [|k| * |remaining length * min(1, g * (maxDepth / 2))|]; so with
    [g = 0] every segment is degenerate, and with [maxDepth >= 1] and
    [g >= 2 / maxDepth] every segment has its full length. *)
Theorem drawTree_drawn_length (k : R) (v : View.t) (sx sy len angle : R)
    (d cd : Z) (c : Ctx.t) :
  similarity k (Ctx.ctm c) ->
  exists (c' : Ctx.t) (segs : list Segment.t),
    drawTree v sx sy len angle d cd c = Some c' /\
    Ctx.strokes c' = Ctx.strokes c ++ segs /\
    Forall (fun s =>
              segment_length s =
              Rabs (k * (remaining_length v len cd s *
                         Rmin 1 (View.growth v *
                                 (IZR (FractalParams.depth (View.params v)) / 2)))))
           segs /\
    (View.growth v = 0 ->
     Forall (fun s => Segment.stop s = Segment.start s) segs) /\
    ((1 <= FractalParams.depth (View.params v))%Z ->
     2 / IZR (FractalParams.depth (View.params v)) <= View.growth v ->
     Forall (fun s => segment_length s = Rabs (k * remaining_length v len cd s)) segs).
Proof.
  intros HM.
  destruct (drawTree_drawn v sx sy len angle d cd c) as (c' & E & _ & _ & O).
  pose proof (tree_segments_length2 k v (Z.to_nat d) (Ctx.ctm c) sx sy len angle cd HM) as H.
  exists c'; eexists; split; [exact E|]. split; [exact O|].
  fold (growth_factor v); split; [|split].
  - eapply Forall_impl; [|exact H].
    intros s [_ Hs]; now apply segment_length_of_square.
  - intros Hg; eapply Forall_impl; [|exact H].
    intros s [_ Hs]; apply segment_degenerate.
    rewrite Hs, (growth_factor_zero v Hg); ring.
  - intros HD Hg; eapply Forall_impl; [|exact H].
    intros s [_ Hs]; apply segment_length_of_square.
    rewrite Hs, (growth_factor_saturated v HD Hg); f_equal; ring.
Qed.

Lemma similarity_fresh : similarity 1 (Ctx.ctm Ctx.fresh).
Proof. unfold similarity; cbn; repeat split; ring. Qed.

(** The context in which [renderFrame] calls [drawTree] scales by the
    device pixel ratio. *)
Lemma similarity_scaled (dpr : R) :
  similarity dpr (Ctx.ctm (Ctx.scale dpr dpr Ctx.fresh)).
Proof. unfold similarity; cbn; repeat split; ring. Qed.

Lemma drawTree_drawn_length_witness :
  similarity 1 (Ctx.ctm Ctx.fresh) /\
  exists (c' : Ctx.t) (segs : list Segment.t),
    drawTree grown 0 0 100 0 10 0 Ctx.fresh = Some c' /\
    Ctx.strokes c' = segs /\
    Forall (fun s => segment_length s = Rabs (1 * remaining_length grown 100 0 s)) segs.
Proof.
  split; [exact similarity_fresh|].
  destruct (drawTree_drawn_length 1 grown 0 0 100 0 10 0 Ctx.fresh similarity_fresh)
    as (c' & segs & E & O & _ & _ & Full).
  exists c', segs; split; [exact E|]. split; [exact O|].
  apply Full; cbn; [lia|lra].
Defined.

(** ** Growth and depth along a run *)

Lemma handle_keeps_zero_or_depth (ev : Event) (v f0 : View.t) :
  (forall now, ev <> AnimationFrame now) ->
  FractalParams.depth (View.params v) = FractalParams.depth (View.params f0) \/
  View.growth v = 0 ->
  FractalParams.depth (View.params (handle ev v)) = FractalParams.depth (View.params f0) \/
  View.growth (handle ev v) = 0.
Proof.
  intros Hev H; destruct ev; cbn; auto.
  now elim (Hev now).
Qed.

(** If the state after the frame [f0] has the depth of [f0] or no
    growth, no two adjacent frames from [f0] on differ in depth unless
    the second has no growth. *)
Lemma frames_adjacent (evs : list Event) :
  forall (v f0 : View.t),
    FractalParams.depth (View.params v) = FractalParams.depth (View.params f0) \/
    View.growth v = 0 ->
    forall (i : nat) (f1 f2 : View.t),
      nth_error (f0 :: frames evs v) i = Some f1 ->
      nth_error (f0 :: frames evs v) (S i) = Some f2 ->
      FractalParams.depth (View.params f1) <> FractalParams.depth (View.params f2) ->
      View.growth f2 = 0.
Proof.
  induction evs as [|ev evs IH]; intros v f0 Hv i f1 f2 H1 H2 Hd.
  - destruct i; discriminate.
  - assert (Other : (forall now, ev <> AnimationFrame now) ->
                    View.growth f2 = 0).
    { intros Hev.
      apply (IH (handle ev v) f0 (handle_keeps_zero_or_depth ev v f0 Hev Hv) i f1 f2);
        destruct ev; try assumption; now elim (Hev now). }
    destruct ev as [now| | | | |]; try (apply Other; discriminate).
    cbn [frames] in H1, H2.
    destruct i as [|i].
    + cbn in H1, H2; injection H1 as <-; injection H2 as <-.
      destruct Hv as [Hv|Hv]; [congruence|exact Hv].
    + apply (IH (handle (AnimationFrame now) v) v (or_introl eq_refl) i f1 f2);
        assumption.
Qed.

Lemma frames_head (evs : list Event) :
  forall v : View.t,
    frames evs v = [] \/
    exists (f0 v' : View.t) (rest : list Event),
      frames evs v = f0 :: frames rest v' /\
      FractalParams.depth (View.params v') = FractalParams.depth (View.params f0).
Proof.
  induction evs as [|ev evs IH]; intros v; [now left|].
  destruct ev as [now| | | | |]; cbn [frames]; try apply IH.
  right; exists v, (handle (AnimationFrame now) v), evs; split; reflexivity.
Qed.

(** C9: the handler of the depth slider leaves the new depth with a
    growth of 0, and along every run of the component, when two frames
    rendered one after the other differ in depth, the second is
    rendered with growth 0. *)
Theorem depth_change_resets_growth (evs : list Event) (v0 : View.t) :
  (forall (value : Z) (v : View.t),
     FractalParams.depth (View.params (handle (DepthChange value) v)) = value /\
     View.growth (handle (DepthChange value) v) = 0) /\
  (forall (i : nat) (f1 f2 : View.t),
     nth_error (frames evs v0) i = Some f1 ->
     nth_error (frames evs v0) (S i) = Some f2 ->
     FractalParams.depth (View.params f1) <> FractalParams.depth (View.params f2) ->
     View.growth f2 = 0).
Proof.
  split; [intros value v; split; reflexivity|].
  intros i f1 f2 H1 H2 Hd.
  destruct (frames_head evs v0) as [E|(f0 & v' & rest & E & Hv)];
    rewrite E in H1, H2.
  - destruct i; discriminate.
  - exact (frames_adjacent rest v' f0 (or_introl Hv) i f1 f2 H1 H2 Hd).
Qed.

Lemma depth_change_resets_growth_witness :
  exists f1 f2 : View.t,
    nth_error (frames depth_moved View.initial) 1 = Some f1 /\
    nth_error (frames depth_moved View.initial) 2 = Some f2 /\
    FractalParams.depth (View.params f1) = 10%Z /\
    FractalParams.depth (View.params f2) = 5%Z /\
    View.growth f2 = 0.
Proof.
  eexists; eexists.
  split; [reflexivity|]. split; [reflexivity|].
  split; [reflexivity|]. split; [reflexivity|].
  apply (proj2 (depth_change_resets_growth depth_moved View.initial) 1%nat
           _ _ eq_refl eq_refl).
  cbn; lia.
Defined.

(** * Further properties of the algorithmic designer *)

(** ** The growth animation *)

Lemma animate_growth (now : R) (v : View.t) :
  View.isAnimating v = true -> View.growth v <= 1 ->
  View.growth (animate now v) = Rmin (View.growth v + 0.01) 1.
Proof.
  intros Ha Hg; unfold animate; cbn [View.growth]; rewrite Ha; cbn [andb].
  unfold Rltb; destruct (Rlt_dec (View.growth v) 1) as [_|Hge]; [reflexivity|].
  rewrite Rmin_right; lra.
Qed.

(** After [n] animation frames the growth is [min(g + n * 0.01, 1)]:
    it reaches 1 after 100 frames at most and stays there. *)
Theorem growth_after_frames (nows : list R) (v : View.t) :
  View.isAnimating v = true -> 0 <= View.growth v <= 1 ->
  View.growth (run (map AnimationFrame nows) v) =
    Rmin (View.growth v + INR (length nows) * 0.01) 1 /\
  ((100 <= length nows)%nat ->
   View.growth (run (map AnimationFrame nows) v) = 1).
Proof.
  intros Ha Hg.
  assert (E : View.growth (run (map AnimationFrame nows) v) =
              Rmin (View.growth v + INR (length nows) * 0.01) 1).
  { revert v Ha Hg; induction nows as [|now nows IH]; intros v Ha Hg.
    - cbn; rewrite Rmin_left; lra.
    - cbn [map run fold_left handle length].
      change (fold_left (fun s ev => handle ev s) (map AnimationFrame nows) (animate now v))
        with (run (map AnimationFrame nows) (animate now v)).
      pose proof (animate_growth now v Ha (proj2 Hg)) as Hstep.
      rewrite IH; [|exact Ha|].
      + rewrite Hstep, S_INR.
        pose proof (pos_INR (length nows)) as Hn.
        unfold Rmin; destruct (Rle_dec (View.growth v + 0.01) 1);
          repeat match goal with |- context [Rle_dec ?a ?b] => destruct (Rle_dec a b) end;
          lra.
      + rewrite Hstep; unfold Rmin; destruct (Rle_dec _ _); lra. }
  split; [exact E|].
  intros Hn; rewrite E.
  apply le_INR in Hn.
  apply Rmin_right.
  assert (H100 : INR 100 = 100) by (rewrite INR_IZR_INZ; reflexivity).
  lra.
Qed.

Lemma growth_after_frames_witness :
  View.growth (run (map AnimationFrame (repeat 0 100)) View.initial) = 1.
Proof.
  apply (growth_after_frames (repeat 0 100) View.initial);
    [reflexivity|cbn; lra|rewrite repeat_length; lia].
Defined.

Lemma handle_growth_unit (ev : Event) (v : View.t) :
  0 <= View.growth v <= 1 -> 0 <= View.growth (handle ev v) <= 1.
Proof.
  intros Hg; destruct ev; cbn; try lra.
  destruct (View.isAnimating v && Rltb (View.growth v) 1); [|exact Hg].
  unfold Rmin; destruct (Rle_dec _ _); lra.
Qed.

(** Along every run that starts with a growth in [0, 1], the growth
    stays in [0, 1]: in the state reached and in every frame rendered. *)
Theorem growth_stays_in_unit (evs : list Event) (v0 : View.t) :
  0 <= View.growth v0 <= 1 ->
  0 <= View.growth (run evs v0) <= 1 /\
  Forall (fun f => 0 <= View.growth f <= 1) (frames evs v0).
Proof.
  revert v0; induction evs as [|ev evs IH]; intros v0 Hg.
  - split; [exact Hg|constructor].
  - destruct (IH (handle ev v0) (handle_growth_unit ev v0 Hg)) as [Hr Hf].
    split; [exact Hr|].
    destruct ev; cbn [frames]; try exact Hf.
    constructor; assumption.
Qed.

Lemma growth_stays_in_unit_witness :
  0 <= View.growth (run depth_moved windy) <= 1.
Proof.
  apply (growth_stays_in_unit depth_moved windy); cbn; lra.
Defined.

(** No event pauses the animation: a run that starts animating is
    still animating in the state it reaches and in every frame. *)
Theorem animation_never_pauses (evs : list Event) (v0 : View.t) :
  View.isAnimating v0 = true ->
  View.isAnimating (run evs v0) = true /\
  Forall (fun f => View.isAnimating f = true) (frames evs v0).
Proof.
  revert v0; induction evs as [|ev evs IH]; intros v0 Ha.
  - split; [exact Ha|constructor].
  - assert (Ha' : View.isAnimating (handle ev v0) = true) by (destruct ev; exact Ha || reflexivity).
    destruct (IH (handle ev v0) Ha') as [Hr Hf].
    split; [exact Hr|].
    destruct ev; cbn [frames]; try exact Hf.
    constructor; assumption.
Qed.

Lemma animation_never_pauses_witness :
  View.isAnimating (run depth_moved View.initial) = true.
Proof.
  apply (animation_never_pauses depth_moved View.initial); reflexivity.
Defined.

(** ** What [drawTree] leaves in the context *)

Lemma drawTree_fuel_restores (fuel : nat) :
  forall (v : View.t) (sx sy len angle : R) (depth cd : Z) (c c' : Ctx.t),
    drawTree_fuel fuel v sx sy len angle depth cd c = Some c' ->
    Ctx.ctm c' = Ctx.ctm c /\ Ctx.saved c' = Ctx.saved c /\
    Ctx.strokeStyle c' = Ctx.strokeStyle c /\ Ctx.lineWidth c' = Ctx.lineWidth c.
Proof.
  induction fuel as [|fuel IH]; intros v sx sy len angle depth cd c c' E; [discriminate|].
  cbn [drawTree_fuel] in E; cbv zeta in E.
  fold (branch_width v cd) in E; rewrite drawTree_trunk in E; cbv zeta in E.
  set (c1 := Ctx.mk _ _ _ _ _ _ _) in E.
  assert (HS : Ctx.saved c1 =
               (Ctx.ctm c, Ctx.strokeStyle c, Ctx.lineWidth c) :: Ctx.saved c)
    by reflexivity.
  assert (Done : forall c4, Ctx.saved c4 = Ctx.saved c1 -> Some (Ctx.restore c4) = Some c' ->
            Ctx.ctm c' = Ctx.ctm c /\ Ctx.saved c' = Ctx.saved c /\
            Ctx.strokeStyle c' = Ctx.strokeStyle c /\ Ctx.lineWidth c' = Ctx.lineWidth c).
  { intros c4 S4 E4; rewrite HS in S4; rewrite (restore_saved _ _ _ _ _ S4) in E4.
    injection E4 as <-; repeat split. }
  destruct (depth <? 1)%Z; [exact (Done c1 eq_refl E)|].
  destruct (drawTree_fuel fuel v 0 _ _ (FractalParams.angle _) _ _ c1) as [c2|] eqn:E2;
    [|discriminate].
  cbn [and_then] in E.
  destruct (drawTree_fuel fuel v 0 _ _ (- FractalParams.angle _) _ _ c2) as [c3|] eqn:E3;
    [|discriminate].
  cbn [and_then] in E.
  apply IH in E2; apply IH in E3.
  destruct (2 <? FractalParams.branchCount (View.params v))%Z.
  - destruct (drawTree_fuel fuel v 0 _ _ 0 _ _ c3) as [c4|] eqn:E4; [|discriminate].
    cbn [and_then] in E; apply IH in E4.
    apply (Done c4); [|exact E].
    destruct E2 as (_ & S2 & _), E3 as (_ & S3 & _), E4 as (_ & S4 & _); congruence.
  - cbn [and_then] in E; apply (Done c3); [|exact E].
    destruct E2 as (_ & S2 & _), E3 as (_ & S3 & _); congruence.
Qed.

(** Every [save] of [drawTree] is matched by a [restore]: the call
    returns, and leaves the transformation, the stack of saved states,
    the stroke style and the line width as it found them. *)
Theorem drawTree_restores_context (v : View.t) (sx sy len angle : R)
    (d cd : Z) (c : Ctx.t) :
  exists c' : Ctx.t,
    drawTree v sx sy len angle d cd c = Some c' /\
    Ctx.ctm c' = Ctx.ctm c /\ Ctx.saved c' = Ctx.saved c /\
    Ctx.strokeStyle c' = Ctx.strokeStyle c /\ Ctx.lineWidth c' = Ctx.lineWidth c.
Proof.
  destruct (drawTree_drawn v sx sy len angle d cd c) as (c' & E & _).
  exists c'; split; [exact E|].
  exact (drawTree_fuel_restores _ _ _ _ _ _ _ _ _ _ E).
Qed.

(** ** Depth indices, widths and lengths of the segments *)

Lemma tree_segments_styles (v : View.t) (n : nat) :
  forall (M : Matrix.t) (sx sy len angle : R) (cd : Z),
    Forall (fun s =>
              (cd <= Segment.style s <= cd + Z.of_nat n)%Z /\
              Segment.width s = branch_width v (Segment.style s))
           (tree_segments n v M sx sy len angle cd).
Proof.
  induction n as [|n IH]; intros M sx sy len angle cd.
  - repeat constructor; cbn [branch_segment Segment.style]; lia.
  - cbn [tree_segments]; cbv zeta.
    set (M' := branch_matrix v M sx sy angle cd).
    set (len' := len * FractalParams.lengthMultiplier (View.params v)).
    assert (Kid : forall a',
      Forall (fun s =>
                (cd <= Segment.style s <= cd + Z.of_nat (S n))%Z /\
                Segment.width s = branch_width v (Segment.style s))
             (tree_segments n v M' 0 (- drawnLen v len) len' a' (cd + 1))).
    { intros a'; eapply Forall_impl; [|apply IH].
      intros s [Hl Hw]; split; [lia|exact Hw]. }
    constructor.
    + cbn [branch_segment Segment.style Segment.width]; split; [lia|reflexivity].
    + rewrite !Forall_app; repeat split; try apply Kid.
      destruct (2 <? FractalParams.branchCount (View.params v))%Z;
        [apply Kid|constructor].
Qed.

(** The depth index of every segment of a call lies between the depth
    index of the call and that plus its remaining depth, and its width
    is [max(0.5, (params.depth - index + 1) * 0.8)]: at least 0.5. *)
Theorem drawTree_indices_and_widths (v : View.t) (sx sy len angle : R)
    (d cd : Z) (c : Ctx.t) :
  exists (c' : Ctx.t) (segs : list Segment.t),
    drawTree v sx sy len angle d cd c = Some c' /\
    Ctx.strokes c' = Ctx.strokes c ++ segs /\
    Forall (fun s =>
              (cd <= Segment.style s <= cd + Z.max 0 d)%Z /\
              Segment.width s =
                Rmax 0.5 (IZR (FractalParams.depth (View.params v)
                               - Segment.style s + 1) * 0.8) /\
              0.5 <= Segment.width s)
           segs.
Proof.
  destruct (drawTree_drawn v sx sy len angle d cd c) as (c' & E & _ & _ & O).
  exists c'; eexists; split; [exact E|]. split; [exact O|].
  eapply Forall_impl; [|apply tree_segments_styles].
  intros s [Hl Hw]; split; [lia|]. split; [exact Hw|].
  rewrite Hw; apply Rmax_l.
Qed.

Lemma growth_factor_unit (v : View.t) :
  0 <= View.growth v -> (0 <= FractalParams.depth (View.params v))%Z ->
  0 <= growth_factor v <= 1.
Proof.
  intros Hg HD; apply IZR_le in HD; unfold growth_factor.
  set (D := IZR (FractalParams.depth (View.params v))) in *.
  assert (0 <= View.growth v * (D / 2)) by (apply Rmult_le_pos; lra).
  unfold Rmin; destruct (Rle_dec _ _); lra.
Qed.

(** With a growth and a depth parameter that are not negative, no
    segment is drawn longer than the remaining length of its call. *)
Theorem drawTree_never_overshoots (k : R) (v : View.t) (sx sy len angle : R)
    (d cd : Z) (c : Ctx.t) :
  similarity k (Ctx.ctm c) ->
  0 <= View.growth v -> (0 <= FractalParams.depth (View.params v))%Z ->
  exists (c' : Ctx.t) (segs : list Segment.t),
    drawTree v sx sy len angle d cd c = Some c' /\
    Ctx.strokes c' = Ctx.strokes c ++ segs /\
    Forall (fun s => segment_length s <= Rabs (k * remaining_length v len cd s)) segs.
Proof.
  intros HM Hg HD.
  destruct (drawTree_drawn v sx sy len angle d cd c) as (c' & E & _ & _ & O).
  exists c'; eexists; split; [exact E|]. split; [exact O|].
  eapply Forall_impl;
    [|exact (tree_segments_length2 k v (Z.to_nat d) (Ctx.ctm c) sx sy len angle cd HM)].
  intros s [_ Hs].
  rewrite (segment_length_of_square _ _ Hs).
  destruct (growth_factor_unit v Hg HD) as [F0 F1].
  replace (k * (remaining_length v len cd s * growth_factor v))
    with (k * remaining_length v len cd s * growth_factor v) by ring.
  rewrite Rabs_mult, (Rabs_pos_eq (growth_factor v)) by assumption.
  pose proof (Rabs_pos (k * remaining_length v len cd s)) as Hp.
  rewrite <- (Rmult_1_r (Rabs (k * remaining_length v len cd s))) at 2.
  apply Rmult_le_compat_l; assumption.
Qed.

Lemma drawTree_never_overshoots_witness :
  exists (c' : Ctx.t) (segs : list Segment.t),
    drawTree windy 0 0 100 0 10 0 Ctx.fresh = Some c' /\
    Ctx.strokes c' = segs /\
    Forall (fun s => segment_length s <= Rabs (1 * remaining_length windy 100 0 s)) segs.
Proof.
  apply (drawTree_never_overshoots 1 windy 0 0 100 0 10 0 Ctx.fresh similarity_fresh);
    cbn; [lra|lia].
Defined.

(** ** The frame *)

Lemma windAngle_trunk (v : View.t) : windAngle v 0 = 0.
Proof. unfold windAngle; destruct (View.enableWind v); [|reflexivity]. lra. Qed.

(** Whatever the wind and the time are, the first line of a frame is
    the trunk, and it goes straight up from the middle of the bottom
    edge of the canvas, [height * 0.25] long once scaled by the growth. *)
Theorem renderFrame_trunk (v : View.t) (ratio width height : R) :
  exists (ctx : Ctx.t) (trunk : Segment.t) (rest : list Segment.t),
    renderFrame v ratio width height = Some ctx /\
    Ctx.strokes ctx = trunk :: rest /\
    Segment.start trunk =
      (pixel_ratio ratio * (width / 2), pixel_ratio ratio * height) /\
    Segment.stop trunk =
      (pixel_ratio ratio * (width / 2),
       pixel_ratio ratio * (height - height * 0.25 * growth_factor v)).
Proof.
  unfold renderFrame; fold (pixel_ratio ratio); cbv zeta.
  set (dpr := pixel_ratio ratio).
  destruct (drawTree_drawn v (width / 2) height (height * 0.25) 0
              (FractalParams.depth (View.params v)) 0 (Ctx.scale dpr dpr Ctx.fresh))
    as (c' & E & _ & _ & O).
  exists c'.
  assert (T : branch_segment v (Ctx.ctm (Ctx.scale dpr dpr Ctx.fresh))
                (width / 2) height (height * 0.25) 0 0 =
              Segment.mk (dpr * (width / 2), dpr * height)
                (dpr * (width / 2), dpr * (height - height * 0.25 * growth_factor v))
                0 (branch_width v 0)).
  { unfold branch_segment, branch_matrix; rewrite windAngle_trunk.
    replace ((0 + 0) * PI / 180) with 0 by lra.
    unfold Matrix.apply, drawnLen; fold (growth_factor v).
    cbn; rewrite cos_0, sin_0; f_equal; f_equal; ring. }
  change (Ctx.strokes (Ctx.scale dpr dpr Ctx.fresh)) with (@nil Segment.t) in O.
  cbn [app] in O.
  destruct (Z.to_nat (FractalParams.depth (View.params v)));
    cbn [tree_segments] in O; cbv zeta in O; rewrite T in O;
    (do 2 eexists; split; [exact E|]; split; [exact O|]; split; reflexivity).
Qed.

Lemma Math_pow_Z (b e : Z) :
  (0 < b)%Z -> (0 < e)%Z -> Math_pow (of_Z b) (of_Z e) = of_Z (b ^ e).
Proof.
  intros Hb He; unfold of_Z.
  rewrite Math_pow_pos by (try apply IZR_lt; try apply not_0_IZR; lia).
  f_equal.
  rewrite <- (Z2Nat.id e) at 1 by lia.
  rewrite <- INR_IZR_INZ, Rpower_pow by (apply IZR_lt; lia).
  rewrite pow_IZR, Z2Nat.id by lia; reflexivity.
Qed.

(** The number shown as "Nodes" is not the number of lines of the
    frame: with a depth parameter [>= 0] it is one more than the lines
    drawn when [branchCount] is 2, and one more than twice the lines
    drawn when [branchCount] is above 2. *)
Theorem nodes_label_overcounts (v : View.t) (ratio width height : R) :
  (0 <= FractalParams.depth (View.params v))%Z ->
  exists ctx : Ctx.t,
    renderFrame v ratio width height = Some ctx /\
    (FractalParams.branchCount (View.params v) = 2%Z ->
     nodes_label (View.params v) = of_Z (Z.of_nat (length (Ctx.strokes ctx)) + 1)) /\
    ((2 < FractalParams.branchCount (View.params v))%Z ->
     nodes_label (View.params v) = of_Z (2 * Z.of_nat (length (Ctx.strokes ctx)) + 1)).
Proof.
  intros HD; unfold renderFrame; cbv zeta.
  set (c := Ctx.scale _ _ Ctx.fresh).
  destruct (drawTree_drawn v (width / 2) height (height * 0.25) 0
              (FractalParams.depth (View.params v)) 0 c) as (c' & E & _ & _ & O).
  exists c'; split; [exact E|].
  change (Ctx.strokes c) with (@nil Segment.t) in O; cbn [app] in O; rewrite O.
  unfold nodes_label; split; intros Hb.
  - rewrite Hb; cbn [Z.eqb Pos.eqb].
    rewrite Math_pow_Z, tree_segments_length_binary by lia.
    rewrite Z2Nat.id by lia; f_equal; lia.
  - destruct (Z.eqb_spec (FractalParams.branchCount (View.params v)) 2); [lia|].
    rewrite Math_pow_Z, (tree_segments_length_ternary v _ Hb) by lia.
    now rewrite Z2Nat.id by lia.
Qed.

Lemma nodes_label_overcounts_witness :
  exists ctx : Ctx.t,
    renderFrame View.initial 2 800 600 = Some ctx /\
    nodes_label (View.params View.initial) =
      of_Z (Z.of_nat (length (Ctx.strokes ctx)) + 1).
Proof.
  destruct (nodes_label_overcounts View.initial 2 800 600) as (ctx & E & H2 & _);
    [cbn; lia|].
  exists ctx; split; [exact E|exact (H2 eq_refl)].
Defined.

Lemma drawTree_fuel_still (fuel : nat) (v v' : View.t) :
  View.params v = View.params v' -> View.growth v = View.growth v' ->
  View.enableWind v = false -> View.enableWind v' = false ->
  forall (sx sy len angle : R) (depth cd : Z) (c : Ctx.t),
    drawTree_fuel fuel v sx sy len angle depth cd c =
    drawTree_fuel fuel v' sx sy len angle depth cd c.
Proof.
  intros Hp Hg Hw Hw'.
  assert (W : forall cd, windAngle v cd = windAngle v' cd)
    by (intros cd; unfold windAngle; now rewrite Hw, Hw').
  assert (L : forall len, drawnLen v len = drawnLen v' len)
    by (intros len; unfold drawnLen; now rewrite Hp, Hg).
  induction fuel as [|fuel IH]; intros sx sy len angle depth cd c; [reflexivity|].
  cbn [drawTree_fuel]; cbv zeta; rewrite <- Hp, <- W, <- L.
  destruct (depth <? 1)%Z; [reflexivity|].
  rewrite <- IH.
  destruct (drawTree_fuel fuel v 0 _ _ (FractalParams.angle _) _ _ _) as [c2|];
    [|reflexivity].
  cbn [and_then]; rewrite <- IH.
  destruct (drawTree_fuel fuel v 0 _ _ (- FractalParams.angle _) _ _ c2) as [c3|];
    [|reflexivity].
  cbn [and_then].
  destruct (2 <? FractalParams.branchCount (View.params v))%Z; [|reflexivity].
  now rewrite <- IH.
Qed.

(** Without wind a frame depends on the parameters and the growth
    only: two views that agree on them are rendered alike, whatever
    their time and animation flag. *)
Theorem renderFrame_still (v v' : View.t) (ratio width height : R) :
  View.params v = View.params v' -> View.growth v = View.growth v' ->
  View.enableWind v = false -> View.enableWind v' = false ->
  renderFrame v ratio width height = renderFrame v' ratio width height.
Proof.
  intros Hp Hg Hw Hw'; unfold renderFrame, drawTree; cbv zeta.
  rewrite <- Hp; now apply drawTree_fuel_still.
Qed.

Lemma renderFrame_still_witness :
  renderFrame grown 1 800 600 =
  renderFrame (View.mk (View.params grown) 1 false false 5000) 1 800 600.
Proof.
  apply (renderFrame_still grown (View.mk (View.params grown) 1 false false 5000));
    reflexivity.
Defined.

(** * Further properties of the parametric designer *)

(** ** The radius and the degenerate resolutions *)

Lemma radius_of_sum_infinite_n1 (vn1 s : num) :
  vn1 = PInf \/ vn1 = NInf -> radius_of_sum vn1 s <> NaN.
Proof.
  intros Hn; unfold radius_of_sum.
  assert (E : js_div (Fin (-1)) vn1 = Fin 0) by (destruct Hn; subst; reflexivity).
  rewrite E.
  assert (P : Math_pow s (Fin 0) = Fin 1).
  { cbn [Math_pow]; destruct (Req_dec_T 0 0); [reflexivity|lra]. }
  rewrite P.
  destruct (js_gt (Math_abs s) (Fin 0)); rewrite js_gt_Fin, Rltb_false by lra; easy.
Qed.

(** Whatever the parameters and the angle are, special values
    included, the radius of a sample is a real in [0, 20] or [NaN]:
    never infinite, never negative; and it is [NaN] only when [n1] is
    [NaN] or a real of magnitude below [2^-1022] (zero, or too small to
    be a normal double). *)
Theorem radius_range (p : SuperformulaParams.t) (phi : num) :
  (radius p phi = NaN \/ exists c, radius p phi = Fin c /\ 0 <= c <= 20) /\
  (radius p phi = NaN ->
   SuperformulaParams.n1 p = NaN \/
   exists e, SuperformulaParams.n1 p = Fin e /\ Rabs e < / 2 ^ 1022).
Proof.
  split.
  - destruct (radius_raw_radial p phi) as (r & Hr & -> & _).
    destruct (clamp_radial r Hr) as [[E _]|H]; [now left|now right].
  - intros HN.
    destruct (SuperformulaParams.n1 p) as [e| | |] eqn:En; [|exfalso|exfalso|now left].
    + destruct (Req_dec_T e 0) as [->|He].
      * right; exists 0; split; [reflexivity|].
        rewrite Rabs_R0; apply Rinv_0_lt_compat, pow_lt; lra.
      * destruct (radius_finite p phi e En He) as (c & Hc & _); congruence.
    + rewrite radius_sum, En in HN.
      now apply (radius_of_sum_infinite_n1 PInf (sum_terms p phi)); [left|].
    + rewrite radius_sum, En in HN.
      now apply (radius_of_sum_infinite_n1 NInf (sum_terms p phi)); [right|].
Qed.

Lemma sqrt2_pow10 : Rpower (sqrt 2) 10 = 32.
Proof.
  assert (Hs : 0 < sqrt 2) by (apply sqrt_lt_R0; lra).
  replace 10 with (INR 10) by (simpl; lra); rewrite Rpower_pow by exact Hs.
  assert (E : sqrt 2 * sqrt 2 = 2) by (apply sqrt_sqrt; lra).
  replace (sqrt 2 ^ 10) with ((sqrt 2 * sqrt 2) ^ 5) by ring.
  rewrite E; ring.
Qed.

(** The curve of [steep] is not degenerate: the radius is 1 at the
    first sample and, at the second, the power [sqrt 2 ^ 10 = 32] is
    clamped to 20. *)
Lemma radius_steep :
  radius steep (phi_at steep 0) = Fin 1 /\
  radius steep (phi_at steep 1) = Fin 20.
Proof.
  rewrite !phi_at_finite by discriminate.
  assert (Hs : 0 < sqrt 2) by (apply sqrt_lt_R0; lra).
  assert (Hi : 0 < 1 / sqrt 2) by (apply Rdiv_lt_0_compat; lra).
  assert (E : sqrt 2 * sqrt 2 = 2) by (apply sqrt_sqrt; lra).
  split.
  - rewrite radius_sum, (sum_terms_Fin_m steep (-1) _ eq_refl).
    cbn [steep SuperformulaParams.a SuperformulaParams.b SuperformulaParams.n1
         SuperformulaParams.n2 SuperformulaParams.n3 SuperformulaParams.resolution].
    replace (-1 * (0 * 2 * PI / 2) / 4) with 0 by lra.
    rewrite cos_0, sin_0, !js_div_Fin by lra; cbn [Math_abs].
    replace (1 / 1) with 1 by lra; replace (0 / 1) with 0 by lra.
    rewrite Rabs_R1, Rabs_R0, Math_pow_one, Math_pow_zero by lra.
    cbn [js_add]; replace (1 + 0) with 1 by lra.
    unfold radius_of_sum; cbn [Math_abs].
    rewrite Rabs_R1, js_gt_Fin, Rltb_true, js_div_Fin by lra.
    rewrite Math_pow_pos, Rpower_base_1 by lra.
    now rewrite js_gt_Fin, Rltb_false by lra.
  - rewrite radius_sum, (sum_terms_Fin_m steep (-1) _ eq_refl).
    cbn [steep SuperformulaParams.a SuperformulaParams.b SuperformulaParams.n1
         SuperformulaParams.n2 SuperformulaParams.n3 SuperformulaParams.resolution].
    replace (-1 * (1 * 2 * PI / 2) / 4) with (- (PI / 4)) by lra.
    rewrite cos_neg, sin_neg, cos_PI4, sin_PI4, !js_div_Fin by lra; cbn [Math_abs].
    replace (- (1 / sqrt 2) / 1) with (- (1 / sqrt 2)) by lra.
    replace (1 / sqrt 2 / 1) with (1 / sqrt 2) by lra.
    rewrite Rabs_Ropp, (Rabs_pos_eq (1 / sqrt 2)) by lra.
    rewrite Math_pow_pos, Rpower_1 by lra.
    cbn [js_add].
    assert (H2 : 1 / sqrt 2 = sqrt 2 / 2).
    { apply Rmult_eq_reg_l with (sqrt 2); [|lra].
      transitivity 1; [field; lra|lra]. }
    replace (1 / sqrt 2 + 1 / sqrt 2) with (sqrt 2) by lra.
    unfold radius_of_sum; cbn [Math_abs].
    rewrite (Rabs_pos_eq (sqrt 2)), js_gt_Fin, Rltb_true, js_div_Fin by lra.
    replace (-1 / -0.1) with 10 by lra.
    rewrite Math_pow_pos, sqrt2_pow10 by lra.
    now rewrite js_gt_Fin, Rltb_true by lra.
Qed.

Lemma point_at_NaN (p : SuperformulaParams.t) : point_at p NaN = Point.mk NaN NaN.
Proof.
  unfold point_at; cbn [Math_cos Math_sin].
  destruct (radius p NaN); reflexivity.
Qed.

(** A resolution of 0 gives one point, with [NaN] coordinates (the
    angle is [0 / 0]); a negative resolution gives no point at all. *)
Theorem calculatePoints_degenerate (p : SuperformulaParams.t) :
  (SuperformulaParams.resolution p <= 0)%Z ->
  calculatePoints p =
  if (SuperformulaParams.resolution p =? 0)%Z then [Point.mk NaN NaN] else [].
Proof.
  intros Hres; rewrite calculatePoints_map.
  destruct (Z.eqb_spec (SuperformulaParams.resolution p) 0) as [E|N].
  - unfold phi_at; rewrite E.
    change (loop_indices 0) with [0%Z]; cbn [map].
    replace (js_div (js_mul (js_mul (of_Z 0) (Fin 2)) Math_PI) (of_Z 0)) with NaN;
      [now rewrite point_at_NaN|].
    unfold of_Z, Math_PI; cbn [js_mul js_div].
    destruct (Req_dec_T 0 0) as [_|F]; [|lra].
    unfold signed_inf.
    destruct (Rlt_dec 0 (0 * 2 * PI)); [lra|].
    destruct (Rlt_dec (0 * 2 * PI) 0); [lra|reflexivity].
  - unfold loop_indices.
    replace (Z.to_nat (SuperformulaParams.resolution p + 1)) with 0%nat by lia.
    reflexivity.
Qed.

Lemma calculatePoints_degenerate_witness :
  calculatePoints zero_resolution = [Point.mk NaN NaN].
Proof.
  apply (calculatePoints_degenerate zero_resolution); cbn; lia.
Defined.

(** ** Randomize, then draw *)

Lemma handleRandomize_fields (u1 u2 u3 u4 : R) :
  0 <= u1 < 1 -> 0 <= u2 < 1 -> 0 <= u3 < 1 -> 0 <= u4 < 1 ->
  exists (k : Z) (r1 r2 r3 : R),
    handleRandomize (Fin u1) (Fin u2) (Fin u3) (Fin u4) =
    SuperformulaParams.mk (Fin (IZR k)) (Fin r1) (Fin r2) (Fin r3) (Fin 1) (Fin 1) 360 /\
    0.1 <= r1 /\ 0.1 <= r2 /\ 0.1 <= r3.
Proof.
  intros H1 H2 H3 H4; unfold handleRandomize; cbn [js_mul js_add Math_floor].
  destruct (toFixed1_between 1 101 (u2 * 10 + 0.1)) as (q1 & -> & Hq1); try lia; [lra|].
  destruct (toFixed1_between 1 51 (u3 * 5 + 0.1)) as (q2 & -> & Hq2); try lia; [lra|].
  destruct (toFixed1_between 1 51 (u4 * 5 + 0.1)) as (q3 & -> & Hq3); try lia; [lra|].
  exists (Zfloor (u1 * 16) + 2)%Z, q1, q2, q3.
  rewrite plus_IZR; repeat split; lra.
Qed.

(** Whatever the four draws in [0, 1) are, the curve of the randomized
    parameters has 361 points, all finite and within 3000 of the
    center. *)
Theorem randomized_curve (u1 u2 u3 u4 : R) :
  0 <= u1 < 1 -> 0 <= u2 < 1 -> 0 <= u3 < 1 -> 0 <= u4 < 1 ->
  let points := calculatePoints (handleRandomize (Fin u1) (Fin u2) (Fin u3) (Fin u4)) in
  length points = 361%nat /\ Forall (within 3000) points.
Proof.
  intros H1 H2 H3 H4.
  destruct (handleRandomize_fields u1 u2 u3 u4 H1 H2 H3 H4)
    as (k & r1 & r2 & r3 & -> & Hr1 & Hr2 & Hr3).
  set (p := SuperformulaParams.mk _ _ _ _ _ _ _); cbv zeta.
  split.
  - rewrite calculatePoints_map, length_map, loop_indices_length; reflexivity.
  - apply (calculatePoints_within p r1); [reflexivity|lra|reflexivity].
Qed.

Lemma randomized_curve_witness :
  length (calculatePoints (handleRandomize (Fin 0) (Fin 0.5) (Fin 0.25) (Fin 0.75)))
  = 361%nat.
Proof.
  refine (proj1 (randomized_curve 0 0.5 0.25 0.75 _ _ _ _)); lra.
Defined.

(** ** The analysis chart *)

(** For finite [m] and [n1] the chart has 12 rows, with steps 0 to 11,
    a stress between 20 and 100 and a material between 40 and
    [40 + 10 * |n1|]. *)
Theorem performanceData_bounds (p : SuperformulaParams.t) (rm r1 : R) :
  SuperformulaParams.m p = Fin rm -> SuperformulaParams.n1 p = Fin r1 ->
  map PerformanceRow.step (performanceData p) =
    map (fun k => of_Z (Z.of_nat k)) (seq 0 12) /\
  Forall (fun row =>
            exists s t : R,
              PerformanceRow.stress row = Fin s /\
              PerformanceRow.material row = Fin t /\
              20 <= s <= 100 /\ 40 <= t <= 40 + 10 * Rabs r1)
         (performanceData p).
Proof.
  intros Hm Hn; unfold performanceData; rewrite Hm, Hn; split.
  - rewrite map_map; reflexivity.
  - apply Forall_map, Forall_forall; intros k _; cbv zeta.
    unfold of_Z; cbn [js_mul js_add Math_sin Math_cos Math_abs
                      PerformanceRow.stress PerformanceRow.material].
    do 2 eexists; split; [reflexivity|]; split; [reflexivity|].
    set (x := IZR (Z.of_nat k) * 0.5).
    rewrite !Rabs_mult, (Rabs_pos_eq 80), (Rabs_pos_eq 10) by lra.
    pose proof (Rabs_pos (sin (x + rm))) as S0.
    pose proof (Rabs_pos (cos x)) as C0.
    pose proof (Rabs_pos r1) as N0.
    assert (S1 : Rabs (sin (x + rm)) <= 1)
      by (apply Rabs_le; destruct (SIN_bound (x + rm)); split; lra).
    assert (C1 : Rabs (cos x) <= 1)
      by (apply Rabs_le; destruct (COS_bound x); split; lra).
    split; [lra|]. split; [nra|nra].
Qed.

Lemma performanceData_bounds_witness :
  length (performanceData Starfish) = 12%nat.
Proof.
  pose proof (proj1 (performanceData_bounds Starfish 5 0.5 eq_refl eq_refl)) as H.
  apply (f_equal (@length num)) in H; rewrite !length_map in H; exact H.
Defined.

(** ** The decorated vertices *)











(** * Further properties: the image editor's slider *)

Lemma Math_max_Fin (r s : R) : Math_max (Fin r) (Fin s) = Fin (Rmax r s).
Proof.
  cbn [Math_max]; rewrite js_gt_Fin; unfold Rltb, Rmax.
  destruct (Rlt_dec s r), (Rle_dec r s); try reflexivity; lra.
Qed.

Lemma Math_min_Fin (r s : R) : Math_min (Fin r) (Fin s) = Fin (Rmin r s).
Proof.
  cbn [Math_min]; rewrite js_gt_Fin; unfold Rltb, Rmin.
  destruct (Rlt_dec s r), (Rle_dec r s); try reflexivity; lra.
Qed.

(** For a pointer and a slider rectangle with finite coordinates the
    position is the percentage clamped to [0, 100]; on a slider of
    width 0 it is 100 right of the left edge, 0 left of it, and [NaN]
    exactly on it. *)
Theorem handleSliderMove_range (x l w : R) :
  (w <> 0 ->
   handleSliderMove (Fin x) (Fin l) (Fin w) =
     Fin (Rmax 0 (Rmin 100 ((x - l) / w * 100))) /\
   0 <= Rmax 0 (Rmin 100 ((x - l) / w * 100)) <= 100) /\
  (w = 0 -> l < x -> handleSliderMove (Fin x) (Fin l) (Fin w) = Fin 100) /\
  (w = 0 -> x < l -> handleSliderMove (Fin x) (Fin l) (Fin w) = Fin 0) /\
  (w = 0 -> x = l -> handleSliderMove (Fin x) (Fin l) (Fin w) = NaN).
Proof.
  unfold handleSliderMove; cbn [js_sub].
  split; [intros Hw; split; [|split]|split; [|split]].
  - rewrite js_div_Fin by assumption; cbn [js_mul].
    now rewrite Math_min_Fin, Math_max_Fin.
  - apply Rmax_l.
  - apply Rmax_lub; [lra|apply Rmin_l].
  - intros -> Hx; cbn [js_div]; destruct (Req_dec_T 0 0); [|lra].
    unfold signed_inf; destruct (Rlt_dec 0 (x - l)); [|lra].
    cbn [js_mul]; unfold signed_inf; destruct (Rlt_dec 0 100); [|lra].
    cbn [Math_min Math_max js_gt]; rewrite Rltb_false by lra; reflexivity.
  - intros -> Hx; cbn [js_div]; destruct (Req_dec_T 0 0); [|lra].
    unfold signed_inf; destruct (Rlt_dec 0 (x - l)); [lra|].
    destruct (Rlt_dec (x - l) 0); [|lra].
    cbn [js_mul]; unfold signed_inf; destruct (Rlt_dec 0 100); [|lra].
    reflexivity.
  - intros -> ->; cbn [js_div]; destruct (Req_dec_T 0 0); [|lra].
    unfold signed_inf; destruct (Rlt_dec 0 (l - l)); [lra|].
    destruct (Rlt_dec (l - l) 0); [lra|reflexivity].
Qed.

Lemma handleSliderMove_range_witness :
  handleSliderMove (Fin 150) (Fin 100) (Fin 200) =
  Fin (Rmax 0 (Rmin 100 ((150 - 100) / 200 * 100))).
Proof.
  apply (proj1 (handleSliderMove_range 150 100 200)); lra.
Defined.

(** * Further properties: the SVG generation service *)

(** ** Prefixes, suffixes and trimming *)

Lemma startsWith_app (p s : jsstring) : startsWith p (p ++ s) = true.
Proof.
  induction p as [|c p IH]; [reflexivity|].
  cbn [app startsWith]; now rewrite N.eqb_refl.
Qed.

Lemma startsWith_shorter (p q s : jsstring) :
  startsWith p s = false -> startsWith (p ++ q) s = false.
Proof.
  revert s; induction p as [|c p IH]; intros s H; [discriminate|].
  destruct s as [|d s]; [reflexivity|].
  cbn [app startsWith] in *.
  destruct (c =? d)%N; [now apply IH|reflexivity].
Qed.

Lemma strip_prefix_app (p s : jsstring) : strip_prefix p (p ++ s) = s.
Proof.
  unfold strip_prefix; rewrite startsWith_app.
  induction p as [|c p IH]; [reflexivity|exact IH].
Qed.

Lemma endsWith_app (p s : jsstring) : endsWith p (s ++ p) = true.
Proof. unfold endsWith; rewrite rev_app_distr; apply startsWith_app. Qed.

Lemma strip_suffix_app (p s : jsstring) : strip_suffix p (s ++ p) = s.
Proof.
  unfold strip_suffix; rewrite endsWith_app, length_app.
  replace (length s + length p - length p)%nat with (length s) by lia.
  induction s as [|c s IH]; [now destruct p|].
  cbn [app length firstn]; now rewrite IH.
Qed.

Lemma drop_space_padding (pad s : jsstring) :
  Forall (fun c => is_space c = true) pad -> drop_space (pad ++ s) = drop_space s.
Proof.
  induction 1 as [|c pad Hc _ IH]; [reflexivity|].
  cbn [app drop_space]; now rewrite Hc.
Qed.

Lemma drop_space_solid (c : N) (s : jsstring) :
  is_space c = false -> drop_space (c :: s) = c :: s.
Proof. intros H; cbn [drop_space]; now rewrite H. Qed.

(** Trimming removes the padding around a text that neither starts
    nor ends with white space. *)
Lemma trim_padded (pad1 pad2 body : jsstring) (c d : N) :
  Forall (fun u => is_space u = true) pad1 ->
  Forall (fun u => is_space u = true) pad2 ->
  is_space c = false -> is_space d = false ->
  trim (pad1 ++ (c :: body ++ [d]) ++ pad2) = c :: body ++ [d].
Proof.
  intros H1 H2 Hc Hd; unfold trim.
  rewrite drop_space_padding by assumption.
  cbn [app]; rewrite drop_space_solid by assumption.
  change (c :: (body ++ [d]) ++ pad2) with ((c :: body ++ [d]) ++ pad2).
  rewrite rev_app_distr, drop_space_padding by (now apply Forall_rev).
  change (c :: body ++ [d]) with ((c :: body) ++ [d]).
  rewrite rev_app_distr; cbn [rev app].
  rewrite drop_space_solid by assumption.
  cbn [rev]; now rewrite rev_app_distr, rev_involutive.
Qed.

Lemma unfence_plain (f s : jsstring) : startsWith f s = false -> unfence f s = s.
Proof. intros H; unfold unfence; now rewrite H. Qed.

Lemma unfence_fenced (f body : jsstring) :
  unfence f (f ++ body ++ Text.fence) = body.
Proof.
  unfold unfence; rewrite startsWith_app, strip_prefix_app.
  apply strip_suffix_app.
Qed.

(** ** The cleanup of the reply *)

(** A reply that does not start with a fence once trimmed is returned
    trimmed, and otherwise unchanged. *)
Theorem generateSvgFromPrompt_plain (text : jsstring) :
  text <> [] -> startsWith Text.fence (trim text) = false ->
  generateSvgFromPrompt (Replied (Some text)) = trim text.
Proof.
  intros Hne Hf; destruct text as [|c text]; [contradiction|].
  cbn [generateSvgFromPrompt]; cbv zeta.
  rewrite (unfence_plain Text.fence_xml)
    by (apply (startsWith_shorter Text.fence Text.xml); exact Hf).
  rewrite (unfence_plain Text.fence_svg)
    by (apply (startsWith_shorter Text.fence Text.svg); exact Hf).
  now apply unfence_plain.
Qed.

Lemma generateSvgFromPrompt_plain_witness :
  generateSvgFromPrompt (Replied (Some (32%N :: Text.svg ++ [10%N]))) = Text.svg.
Proof.
  apply (generateSvgFromPrompt_plain (32%N :: Text.svg ++ [10%N]));
    [discriminate|reflexivity].
Defined.

Lemma startsWith_extended (tag body : jsstring) (r : N) (rest : jsstring) :
  Forall (fun c => c <> r) tag ->
  startsWith tag body = false ->
  startsWith tag (body ++ r :: rest) = false.
Proof.
  intros Htag; revert body; induction Htag as [|t tag Ht _ IH]; intros body H;
    [discriminate|].
  destruct body as [|b body]; cbn [app startsWith] in *.
  - apply N.eqb_neq in Ht; now rewrite Ht.
  - destruct (t =? b)%N; [now apply IH|reflexivity].
Qed.

(** A reply whose text is a body between a fence [```xml], [```svg] or
    [```] and a closing fence, with white space around, is cleaned to
    the body, when the body does not itself start with a fence (nor,
    after a bare fence, with [xml] or [svg]). *)
Theorem generateSvgFromPrompt_fenced (pad1 pad2 tag body : jsstring) :
  Forall (fun u => is_space u = true) pad1 ->
  Forall (fun u => is_space u = true) pad2 ->
  tag = Text.xml \/ tag = Text.svg \/ tag = [] ->
  startsWith Text.fence body = false ->
  (tag = [] -> startsWith Text.xml body = false /\ startsWith Text.svg body = false) ->
  generateSvgFromPrompt
    (Replied (Some (pad1 ++ (Text.fence ++ tag ++ body ++ Text.fence) ++ pad2))) = body.
Proof.
  intros H1 H2 Htag Hb Hbare.
  set (fenced := Text.fence ++ tag ++ body ++ Text.fence).
  assert (T : trim (pad1 ++ fenced ++ pad2) = fenced).
  { unfold fenced.
    replace (Text.fence ++ tag ++ body ++ Text.fence)
      with (96%N :: ([96; 96]%N ++ tag ++ body ++ [96; 96]%N) ++ [96%N])
      by (cbn [app]; rewrite <- !app_assoc; reflexivity).
    apply trim_padded; try assumption; reflexivity. }
  assert (Hne : pad1 ++ fenced ++ pad2 <> []).
  { intros E; apply (f_equal (@length N)) in E.
    unfold fenced in E; rewrite !length_app in E; cbn in E; lia. }
  destruct (pad1 ++ fenced ++ pad2) as [|c text] eqn:Etext; [contradiction|].
  cbn [generateSvgFromPrompt]; cbv zeta; rewrite T; unfold fenced.
  destruct Htag as [-> | [-> | ->]].
  - change (Text.fence ++ Text.xml ++ body ++ Text.fence)
      with (Text.fence_xml ++ body ++ Text.fence).
    rewrite unfence_fenced.
    rewrite (unfence_plain Text.fence_svg)
      by (apply (startsWith_shorter Text.fence Text.svg); exact Hb).
    now apply unfence_plain.
  - rewrite (unfence_plain Text.fence_xml) by reflexivity.
    change (Text.fence ++ Text.svg ++ body ++ Text.fence)
      with (Text.fence_svg ++ body ++ Text.fence).
    rewrite unfence_fenced.
    now apply unfence_plain.
  - destruct (Hbare eq_refl) as [Hx Hs]; cbn [app].
    assert (Tag : forall tag, Forall (fun c => c <> 96%N) tag ->
                    startsWith tag body = false ->
                    startsWith (Text.fence ++ tag) (Text.fence ++ body ++ Text.fence) = false).
    { intros tag Ht Hno.
      change (startsWith (Text.fence ++ tag) (Text.fence ++ body ++ Text.fence))
        with (startsWith tag (body ++ 96%N :: [96; 96]%N)).
      now apply startsWith_extended. }
    rewrite (unfence_plain Text.fence_xml)
      by (apply (Tag Text.xml); [repeat constructor; discriminate|exact Hx]).
    rewrite (unfence_plain Text.fence_svg)
      by (apply (Tag Text.svg); [repeat constructor; discriminate|exact Hs]).
    apply (unfence_fenced Text.fence).
Qed.

Lemma generateSvgFromPrompt_fenced_witness :
  generateSvgFromPrompt
    (Replied (Some ([10%N] ++ (Text.fence ++ Text.xml ++ Text.svg ++ Text.fence) ++ [32%N])))
  = Text.svg.
Proof.
  apply (generateSvgFromPrompt_fenced [10%N] [32%N] Text.xml Text.svg).
  - repeat constructor.
  - repeat constructor.
  - now left.
  - reflexivity.
  - discriminate.
Defined.

Lemma part_of_refl (s : jsstring) : part_of s s.
Proof. exists [], []; now rewrite app_nil_r. Qed.

Lemma part_of_trans (s t u : jsstring) : part_of s t -> part_of t u -> part_of s u.
Proof.
  intros (a & b & ->) (c & d & ->); exists (c ++ a), (b ++ d).
  now rewrite <- !app_assoc.
Qed.

Lemma drop_space_suffix (s : jsstring) : exists pre, s = pre ++ drop_space s.
Proof.
  induction s as [|c s (pre & IH)]; [now exists []|].
  cbn [drop_space]; destruct (is_space c).
  - exists (c :: pre); cbn [app]; now f_equal.
  - now exists [].
Qed.

Lemma trim_part (s : jsstring) : part_of (trim s) s.
Proof.
  destruct (drop_space_suffix s) as (pre & E).
  destruct (drop_space_suffix (rev (drop_space s))) as (post & E').
  exists pre, (rev post); unfold trim.
  rewrite <- rev_app_distr, <- E', rev_involutive; exact E.
Qed.

Lemma strip_prefix_part (p s : jsstring) : part_of (strip_prefix p s) s.
Proof.
  unfold strip_prefix; destruct (startsWith p s); [|apply part_of_refl].
  exists (firstn (length p) s), []; now rewrite app_nil_r, firstn_skipn.
Qed.

Lemma strip_suffix_part (p s : jsstring) : part_of (strip_suffix p s) s.
Proof.
  unfold strip_suffix; destruct (endsWith p s); [|apply part_of_refl].
  exists [], (skipn (length s - length p) s); cbn [app]; now rewrite firstn_skipn.
Qed.

Lemma unfence_part (f s : jsstring) : part_of (unfence f s) s.
Proof.
  unfold unfence; destruct (startsWith f s); [|apply part_of_refl].
  eapply part_of_trans; [apply strip_suffix_part|apply strip_prefix_part].
Qed.

(** The cleanup only cuts at the two ends: what is returned for a reply
    with a text is that text less a prefix and a suffix, so never
    longer than it. *)
Theorem generateSvgFromPrompt_cuts_ends (text : jsstring) :
  text <> [] ->
  part_of (generateSvgFromPrompt (Replied (Some text))) text /\
  (length (generateSvgFromPrompt (Replied (Some text))) <= length text)%nat.
Proof.
  intros Hne.
  assert (P : part_of (generateSvgFromPrompt (Replied (Some text))) text).
  { destruct text as [|c text]; [contradiction|].
    cbn [generateSvgFromPrompt]; cbv zeta.
    repeat (eapply part_of_trans; [apply unfence_part|]).
    apply trim_part. }
  split; [exact P|].
  destruct P as (pre & post & E).
  rewrite E at 2; rewrite !length_app; lia.
Qed.

Lemma generateSvgFromPrompt_cuts_ends_witness :
  part_of (generateSvgFromPrompt (Replied (Some (Text.fence_svg ++ Text.svg))))
          (Text.fence_svg ++ Text.svg).
Proof.
  apply (generateSvgFromPrompt_cuts_ends (Text.fence_svg ++ Text.svg)); discriminate.
Defined.

(** * Further properties: the AI designer *)

Lemma firstn_Forall {A : Type} (P : A -> Prop) (n : nat) (l : list A) :
  Forall P l -> Forall P (firstn n l).
Proof.
  intros H; rewrite <- (firstn_skipn n l) in H.
  now apply Forall_app in H.
Qed.

Lemma ai_handle_history (ev : AiEvent) (s : AiState.t) :
  (length (AiState.history s) <= 5)%nat -> Forall stored_ok (AiState.history s) ->
  (length (AiState.history (ai_handle ev s)) <= 5)%nat /\
  Forall stored_ok (AiState.history (ai_handle ev s)).
Proof.
  intros Hl Hf; destruct ev as [value| |prompt r now1 now2|item|mode];
    cbn [ai_handle]; try (split; assumption).
  - destruct (AiState.isLoading s || _); [split; assumption|].
    unfold handleGenerate_start; destruct (is_blank _); split; assumption.
  - unfold handleGenerate_finish; cbv zeta.
    destruct (includes Text.Error (generateSvgFromPrompt r)) eqn:Hinc;
      cbn [negb AiState.history]; [split; assumption|].
    split.
    + rewrite length_firstn; lia.
    + apply firstn_Forall; constructor; [exact Hinc|exact Hf].
Qed.

(** Along every run of the designer the history holds at most 5 items,
    and none of them is an SVG that contains "Error". *)
Theorem ai_history_invariant (evs : list AiEvent) (s0 : AiState.t) :
  (length (AiState.history s0) <= 5)%nat -> Forall stored_ok (AiState.history s0) ->
  (length (AiState.history (ai_run evs s0)) <= 5)%nat /\
  Forall stored_ok (AiState.history (ai_run evs s0)).
Proof.
  revert s0; induction evs as [|ev evs IH]; intros s0 Hl Hf; [split; assumption|].
  destruct (ai_handle_history ev s0 Hl Hf) as [Hl' Hf'].
  exact (IH (ai_handle ev s0) Hl' Hf').
Qed.

Lemma ai_history_invariant_witness :
  (length (AiState.history (ai_run two_generations AiState.initial)) <= 5)%nat.
Proof.
  apply (ai_history_invariant two_generations AiState.initial);
    [cbn; lia|constructor].
Defined.

(** The two placeholders are not treated alike.  When the reply has no
    text, the "Error generating" placeholder is shown and the history
    is left alone; when the call throws, the "Generation Failed"
    placeholder is shown and is stored in the history as a generation. *)
Theorem placeholders_and_history (prompt : jsstring) (now1 now2 : N)
    (s : AiState.t) :
  (forall text, text = None \/ text = Some [] ->
     AiState.currentSvg (handleGenerate_finish prompt (Replied text) now1 now2 s)
       = Some Text.error_svg /\
     AiState.history (handleGenerate_finish prompt (Replied text) now1 now2 s)
       = AiState.history s) /\
  AiState.currentSvg (handleGenerate_finish prompt Threw now1 now2 s)
    = Some Text.failed_svg /\
  AiState.history (handleGenerate_finish prompt Threw now1 now2 s)
    = firstn 5 (DesignHistoryItem.mk (toString now1) prompt Text.failed_svg now2
                  :: AiState.history s).
Proof.
  assert (E : includes Text.Error Text.error_svg = true) by reflexivity.
  assert (F : includes Text.Error Text.failed_svg = false) by reflexivity.
  split; [|split].
  - intros text [-> | ->]; unfold handleGenerate_finish;
      cbn [generateSvgFromPrompt]; cbv zeta; rewrite E; split; reflexivity.
  - unfold handleGenerate_finish; cbn [generateSvgFromPrompt]; cbv zeta.
    now rewrite F.
  - unfold handleGenerate_finish; cbn [generateSvgFromPrompt]; cbv zeta.
    now rewrite F.
Qed.

Lemma trim_blank (s : jsstring) :
  Forall (fun u => is_space u = true) s -> trim s = [].
Proof.
  intros H; unfold trim.
  rewrite <- (app_nil_r s), drop_space_padding by assumption.
  reflexivity.
Qed.

(** A click on the button starts nothing when the prompt is made of
    white space only, or while a request is running: the state is
    unchanged. *)
Theorem GenerateClick_ignored (s : AiState.t) :
  Forall (fun u => is_space u = true) (AiState.prompt s) \/ AiState.isLoading s = true ->
  ai_handle GenerateClick s = s.
Proof.
  intros [H | H]; cbn [ai_handle].
  - destruct (AiState.isLoading s || _); [reflexivity|].
    unfold handleGenerate_start, is_blank; now rewrite trim_blank.
  - now rewrite H.
Qed.

Lemma GenerateClick_ignored_witness :
  ai_handle GenerateClick (AiState.mk [32; 10; 9]%N false None [] preview) =
  AiState.mk [32; 10; 9]%N false None [] preview.
Proof.
  apply (GenerateClick_ignored (AiState.mk [32; 10; 9]%N false None [] preview)).
  left; repeat constructor.
Defined.

(** * Further properties: the data URL of the image editor *)

Lemma split_whole (sep : N) (s : jsstring) : ~ In sep s -> split sep s = [s].
Proof.
  induction s as [|c s IH]; intros H; [reflexivity|].
  cbn [split].
  destruct (N.eqb_spec c sep) as [->|_]; [elim H; now left|].
  rewrite IH; [reflexivity|]. intros F; apply H; now right.
Qed.

Lemma split_at (sep : N) (s t : jsstring) :
  ~ In sep s -> split sep (s ++ sep :: t) = s :: split sep t.
Proof.
  induction s as [|c s IH]; intros H.
  - cbn [app split]; now rewrite N.eqb_refl.
  - cbn [app split].
    destruct (N.eqb_spec c sep) as [->|_]; [elim H; now left|].
    rewrite IH; [reflexivity|]. intros F; apply H; now right.
Qed.

Lemma split_first_within (sep : N) (s : jsstring) (c : N) :
  In c (nth 0 (split sep s) []) -> In c s.
Proof.
  induction s as [|d s IH]; [intros []|].
  cbn [split]; destruct (d =? sep)%N; [intros []|].
  destruct (split sep s) as [|piece pieces]; cbn [nth] in *.
  - intros [<-|[]]; now left.
  - intros [<-|H]; [now left|right; now apply IH].
Qed.

(** The parse of a data URL gives back the mime type and the data it
    was made of, when the mime type holds no comma, colon or semicolon
    and the data no comma; a string without a colon makes the parse
    throw. *)
Theorem parse_data_url_roundtrip (mime data : jsstring) :
  ~ In Text.comma mime -> ~ In Text.colon mime -> ~ In Text.semicolon mime ->
  ~ In Text.comma data ->
  parse_data_url (Text.data_scheme ++ mime ++ Text.base64_marker ++ data) =
    Some (mime, Some data) /\
  (forall s : jsstring, ~ In Text.colon s -> parse_data_url s = None).
Proof.
  intros Hcomma Hcolon Hsemi Hdata; split.
  - unfold parse_data_url; cbv zeta.
    set (base64 := [98; 97; 115; 101; 54; 52]%N).
    set (meta := [100; 97; 116; 97]%N ++ Text.colon :: mime ++ Text.semicolon :: base64).
    replace (Text.data_scheme ++ mime ++ Text.base64_marker ++ data)
      with (meta ++ Text.comma :: data)
      by (unfold meta, base64; cbn [app]; rewrite <- !app_assoc; reflexivity).
    assert (Hmeta : ~ In Text.comma meta).
    { unfold meta, base64; cbn [app In]; rewrite in_app_iff; cbn [In].
      unfold Text.comma, Text.colon, Text.semicolon in *.
      intros H; repeat destruct H as [H|H]; try discriminate; try contradiction. }
    rewrite (split_at _ _ _ Hmeta), (split_whole _ _ Hdata); cbn [nth nth_error].
    unfold meta; rewrite split_at by (cbn; intuition discriminate).
    rewrite split_whole; cbn [nth_error].
    + rewrite (split_at _ _ _ Hsemi); reflexivity.
    + unfold base64; rewrite in_app_iff; cbn [In].
      unfold Text.comma, Text.colon, Text.semicolon in *.
      intros H; repeat destruct H as [H|H]; try discriminate; try contradiction.
  - intros s Hs; unfold parse_data_url; cbv zeta.
    rewrite split_whole; [reflexivity|].
    intros F; apply Hs; exact (split_first_within _ _ _ F).
Qed.

Lemma parse_data_url_roundtrip_witness :
  parse_data_url (png_data_url [65; 66; 67; 61]%N) =
  Some (Text.image_png, Some [65; 66; 67; 61]%N).
Proof.
  apply (parse_data_url_roundtrip Text.image_png [65; 66; 67; 61]%N);
    cbn; intuition discriminate.
Defined.
